(** * bin/optimize.py: role activation and the block-scoped line filter

    A shallow embedding of [src/bin/optimize.py].

    Conventions of the embedding.
    - A Python [str] is a [string]; a character is a code point, and the
      model covers the code points below 256 (type [ascii]).
    - A Python [set] of strings is a [gset string]; a [dict] read through
      string keys is a [gmap string _].
    - A Python [list] that the code grows with [append] and shrinks with
      [pop] keeps Python's orientation: the newest element is the last one.
    - [raise Exception(...)] is a value [Raise e]; the exception [e] keeps
      the arguments of the message's [format] call instead of the text.
    - The file system and the YAML parser are not part of the program: a
      function that reads a file takes what the read returns as an
      argument. *)

From Stdlib Require Import Ascii String List.
From stdpp Require Import gmap strings list sorting.

Local Open Scope string_scope.
Local Open Scope list_scope.
Local Open Scope nat_scope.

(** ** Exceptions and results *)

(** What [type(value)] prints for the values [yaml.safe_load] builds. *)
Inductive pytype : Type :=
  | TNoneType | TBool | TInt | TStr | TList | TDict.

(** The exceptions the program raises, one constructor per [raise]
    statement, in source order. The arguments are those of the message. *)
Inductive exn : Type :=
  (* line 61 *)
  | VarsNotMapping (vars_path : string) (got : pytype)
  (* line 131 *)
  | UnknownRoleStart (role_name : string) (line_number : nat)
      (file_name : string) (known_sorted : list string)
  (* line 147 *)
  | UnknownRoleEnd (role_name : string) (line_number : nat)
      (file_name : string) (known_sorted : list string)
  (* line 157 *)
  | EndWithoutStart (role_name : string) (line_number : nat)
      (file_name : string)
  (* line 167 *)
  | EndMismatch (role_name : string) (line_number : nat)
      (file_name : string) (last_role_name : string)
  (* line 195 *)
  | UnclosedBlocks (file_name : string) (role_specific_stack : list string)
  (* line 210 *)
  | RequirementsEmpty
  (* line 212 *)
  | RequirementsNotList (got : pytype)
  (* line 219 *)
  | RoleDefinitionNotDict (got : pytype)
  (* line 222 *)
  | RoleDefinitionWithoutName (role_definition : gmap string string).

Inductive result (A : Type) : Type :=
  | Ok (a : A)
  | Raise (e : exn).
Arguments Ok {A} a.
Arguments Raise {A} e.

Global Instance result_ret : MRet result := λ A a, Ok a.

Global Instance result_bind : MBind result := λ A B k r,
  match r with
  | Ok a => k a
  | Raise e => Raise e
  end.

Definition fails {A : Type} (r : result A) : Prop :=
  match r with Ok _ => False | Raise _ => True end.

(** ** Strings *)

Module Str.

(** [s.startswith(prefix)] *)
Fixpoint startswith (s prefix : string) {struct prefix} : bool :=
  match prefix, s with
  | EmptyString, _ => true
  | String _ _, EmptyString => false
  | String p prefix', String c s' =>
      if Ascii.eqb c p then startswith s' prefix' else false
  end.

Definition newline : ascii := "010"%char.

(** [s.split("\n")]: never the empty list; [""] splits into [[""]]. *)
Fixpoint split (s : string) : list string :=
  match s with
  | EmptyString => [EmptyString]
  | String c s' =>
      if Ascii.eqb c newline then EmptyString :: split s'
      else match split s' with
           | l :: ls => String c l :: ls
           | [] => [String c EmptyString]
           end
  end.

(** ["\n".join(lines)] *)
Fixpoint join (lines : list string) : string :=
  match lines with
  | [] => EmptyString
  | [l] => l
  | l :: ls => l +:+ String newline (join ls)
  end.

(** A string that holds no newline, as every element of a [split]. *)
Definition has_no_newline (s : string) : Prop :=
  newline ∉ list_ascii_of_string s.

End Str.

(** ** The marker patterns (lines 108 and 112) *)

Module Marker.

(** The class [\s] of a [str] pattern, on the code points below 256:
    tab to carriage return, the four separators 28-31, space, NEL (133)
    and the no-break space (160). *)
Definition is_space (c : ascii) : bool :=
  let n := nat_of_ascii c in
  (((9 <=? n) && (n <=? 13)) || ((28 <=? n) && (n <=? 32))
   || (n =? 133) || (n =? 160))%nat.
Global Arguments is_space : simpl never.

(** [\s*] at the head of [s]: what is left after the longest run. *)
Fixpoint skip_spaces (s : string) : string :=
  match s with
  | String c s' => if is_space c then skip_spaces s' else s
  | EmptyString => EmptyString
  end.

(** A literal at the head of [s]: what is left after it. *)
Fixpoint literal (lit s : string) {struct lit} : option string :=
  match lit, s with
  | EmptyString, _ => Some s
  | String _ _, EmptyString => None
  | String a lit', String c s' =>
      if Ascii.eqb c a then literal lit' s' else None
  end.

(** [[^\s]*] at the head of [s]: the longest run and what is left. *)
Fixpoint token (s : string) : string * string :=
  match s with
  | String c s' =>
      if is_space c then (EmptyString, s)
      else let '(t, rest) := token s' in (String c t, rest)
  | EmptyString => (EmptyString, EmptyString)
  end.

(** [$] without [re.MULTILINE]: the end of the string, or the position
    before a newline that ends the string. *)
Definition at_end (s : string) : bool :=
  match s with
  | EmptyString => true
  | String c EmptyString => Ascii.eqb c Str.newline
  | _ => false
  end.

(** [re.compile(r"^\s*#\s*" + keyword + r"\s*([^\s]+)$").match(line)],
    giving [group(1)] of the match. Each [\s*] is followed by a character
    that is not a space and the group by [$], so no shorter run can lead
    to a match and the matcher never backtracks. *)
Definition match_marker (keyword line : string) : option string :=
  s1 ← literal "#" (skip_spaces line);
  s2 ← literal keyword (skip_spaces s1);
  let '(role_name, rest) := token (skip_spaces s2) in
  if bool_decide (role_name ≠ "") && at_end rest then Some role_name
  else None.

Definition regex_role_specific_block_start : string → option string :=
  match_marker "role-specific:".

Definition regex_role_specific_block_end : string → option string :=
  match_marker "/role-specific:".

(** A line that neither pattern matches. *)
Definition is_regular (line : string) : Prop :=
  regex_role_specific_block_start line = None
  ∧ regex_role_specific_block_end line = None.

Global Instance is_regular_dec line : Decision (is_regular line).
Proof. unfold is_regular. apply _. Defined.

(** The strings [\s*] and [[^\s]*] can match. *)
Definition all_spaces (s : string) : Prop :=
  Forall (fun c => is_space c = true) (list_ascii_of_string s).
Definition no_spaces (s : string) : Prop :=
  Forall (fun c => is_space c = false) (list_ascii_of_string s).

(** What the pattern [^\s*#\s*keyword\s*([^\s]+)$] says of a line, with
    [role_name] for the group. *)
Definition matches (keyword line role_name : string) : Prop :=
  ∃ ws1 ws2 ws3 tail,
    line = ws1 +:+ "#" +:+ ws2 +:+ keyword +:+ ws3 +:+ role_name +:+ tail
    ∧ all_spaces ws1 ∧ all_spaces ws2 ∧ all_spaces ws3
    ∧ no_spaces role_name ∧ role_name ≠ ""
    ∧ (tail = "" ∨ tail = String Str.newline "").

(** A string that does not start with a space. *)
Definition starts_solid (s : string) : Prop :=
  match s with
  | EmptyString => True
  | String c _ => is_space c = false
  end.

End Marker.

(** ** Role activation (lines 73-82) *)

(** A role definition is a [dict]; the entries of requirements.yml map
    strings to strings ([src], [version], [name], [activation_prefix]).
    A key that is absent is the [None] of [get]; values of other types
    (a YAML null, a number) are outside this type. *)
Abbreviation RoleDefinition := (gmap string string).

(** [any(var_name.startswith(prefix) for var_name in names)] *)
Definition any_startswith (prefix : string) (names : gset string) : bool :=
  existsb (fun var_name => Str.startswith var_name prefix) (elements names).

Definition is_role_definition_in_use
    (role_definition : RoleDefinition) (used_variable_names : gset string)
    : bool :=
  match role_definition !! "activation_prefix" with
  | None => false
  | Some prefix =>
      if decide (prefix = "") then true
      else any_startswith prefix used_variable_names
  end.

(** ** The line filter (lines 117-201) *)

(** [sorted(names)]: the elements in the order of [str], which compares
    code point by code point. *)
Definition sorted (names : gset string) : list string :=
  merge_sort String.le (elements names).

(** [enumerate(l, start)] *)
Fixpoint enumerate {A : Type} (start : nat) (l : list A) : list (nat * A) :=
  match l with
  | [] => []
  | x :: l' => (start, x) :: enumerate (S start) l'
  end.

(** The three locals the loop updates. *)
Record state : Type := State {
  role_specific_stack : list string;
  out_lines : list string;
  sequential_blank_lines_count : nat
}.

Definition initial : state := State [] [] 0.

Section filter.

Variable file_name : string.
Variables enabled_role_names_set known_role_names_set : gset string.

(** [any(role_name not in enabled_role_names_set for role_name in stack)] *)
Definition any_not_enabled (stack : list string) : bool :=
  existsb (fun role_name => bool_decide (role_name ∉ enabled_role_names_set))
    stack.

(** Blank-line compaction (lines 184-192): keep at most 2 sequential
    blank lines. *)
Definition compaction (st : state) (line : string) : state :=
  let '(State stack out count) := st in
  if decide (line = "") then
    if (count <=? 1)%nat then State stack (out ++ [line]) (count + 1)
    else st
  else State stack (out ++ [line]) 0.

(** One iteration of the loop (lines 126-192). *)
Definition step (st : state) (line_number : nat) (line : string)
    : result state :=
  let '(State stack out count) := st in
  (* Stage 1: role-specific start *)
  match Marker.regex_role_specific_block_start line with
  | Some role_name =>
      if decide (role_name ∉ known_role_names_set) then
        Raise (UnknownRoleStart role_name line_number file_name
                 (sorted known_role_names_set))
      else Ok (State (stack ++ [role_name]) out count)
  | None =>
  (* Stage 2: role-specific end *)
  match Marker.regex_role_specific_block_end line with
  | Some role_name =>
      if decide (role_name ∉ known_role_names_set) then
        Raise (UnknownRoleEnd role_name line_number file_name
                 (sorted known_role_names_set))
      else
        match last stack with
        | None (* len(role_specific_stack) == 0 *) =>
            Raise (EndWithoutStart role_name line_number file_name)
        | Some last_role_name =>
            if decide (role_name ≠ last_role_name) then
              Raise (EndMismatch role_name line_number file_name
                       last_role_name)
            else Ok (State (removelast stack) out count)
        end
  | None =>
  (* Stage 3: regular line *)
  if any_not_enabled stack then Ok st
  else Ok (compaction st line)
  end
  end.

(** The [for] loop over the numbered lines. *)
Fixpoint scan (st : state) (numbered : list (nat * string))
    : result state :=
  match numbered with
  | [] => Ok st
  | (line_number, line) :: rest =>
      st' ← step st line_number line; scan st' rest
  end.

(** [contents] is what [read_file(file_name)] returns. *)
Definition process_file_contents (contents : string) : result string :=
  st ← scan initial (enumerate 1 (Str.split contents));
  if decide (length (role_specific_stack st) ≠ 0) then
    Raise (UnclosedBlocks file_name (role_specific_stack st))
  else Ok (Str.join (out_lines st)).

End filter.

(** ** Loading the variable names (lines 53-67) *)

(** The values [yaml.safe_load] builds, with mappings keyed by strings. *)
#[local] Set Warnings "-register-all".
Inductive yaml : Type :=
  | YNone
  | YBool (b : bool)
  | YInt (n : Z)
  | YStr (s : string)
  | YList (items : list yaml)
  | YDict (entries : gmap string yaml).

Definition type_of (v : yaml) : pytype :=
  match v with
  | YNone => TNoneType
  | YBool _ => TBool
  | YInt _ => TInt
  | YStr _ => TStr
  | YList _ => TList
  | YDict _ => TDict
  end.

(** Python's truth value: [None], [False], zero and the empty string, list
    and dict are false. *)
Definition truthy (v : yaml) : bool :=
  match v with
  | YNone => false
  | YBool b => b
  | YInt n => negb (n =? 0)%Z
  | YStr s => negb (bool_decide (s = ""))
  | YList items => negb (bool_decide (items = []))
  | YDict entries => negb (bool_decide (entries = ∅))
  end.

(** [value or {}] *)
Definition or_empty_dict (value : yaml) : yaml :=
  if truthy value then value else YDict ∅.

(** The loop of lines 55-65; each file comes as its path and what
    [yaml.safe_load] returns for it. *)
Fixpoint load_loop (variable_names : gset string)
    (files : list (string * yaml)) : result (gset string) :=
  match files with
  | [] => Ok variable_names
  | (vars_path, loaded) :: rest =>
      match or_empty_dict loaded with
      | YDict entries => load_loop (variable_names ∪ dom entries) rest
      | yaml_data => Raise (VarsNotMapping vars_path (type_of yaml_data))
      end
  end.

Definition load_combined_variable_names_from_files
    (files : list (string * yaml)) : result (gset string) :=
  load_loop ∅ files.

(** ** The resolver (lines 208-229) *)

(** A loaded value seen through an [isinstance] check: of the expected
    type, with its content, or of another type. *)
Inductive checked (A : Type) : Type :=
  | Is (a : A)
  | IsNot (got : pytype).
Arguments Is {A} a.
Arguments IsNot {A} got.

(** The loop of lines 216-225; [enabled_role_definitions] is the list the
    loop appends to. *)
Fixpoint select_enabled (used_variable_names : gset string)
    (enabled_role_definitions : list RoleDefinition)
    (definitions : list (checked RoleDefinition))
    : result (list RoleDefinition) :=
  match definitions with
  | [] => Ok enabled_role_definitions
  | IsNot got :: _ => Raise (RoleDefinitionNotDict got)
  | Is role_definition :: rest =>
      if decide (role_definition !! "name" = None) then
        Raise (RoleDefinitionWithoutName role_definition)
      else if is_role_definition_in_use role_definition used_variable_names
      then select_enabled used_variable_names
             (enabled_role_definitions ++ [role_definition]) rest
      else select_enabled used_variable_names enabled_role_definitions rest
  end.

(** The entries that are dicts: all of them once the loop has passed. *)
Definition dicts (definitions : list (checked RoleDefinition))
    : list RoleDefinition :=
  omap (fun entry => match entry with Is d => Some d | IsNot _ => None end)
    definitions.

(** [{definition["name"] for definition in definitions}]; every definition
    it is applied to has passed the check of line 221. *)
Definition names_of (definitions : list RoleDefinition) : gset string :=
  list_to_set ((fun definition => definition !!! "name") <$> definitions).

(** Lines 208-229: the pair [(enabled_role_names, known_role_names)]. *)
Definition resolve
    (all_role_definitions : checked (list (checked RoleDefinition)))
    (used_variable_names : gset string) : result (gset string * gset string) :=
  match all_role_definitions with
  | IsNot TNoneType => Raise RequirementsEmpty
  | IsNot got => Raise (RequirementsNotList got)
  | Is definitions =>
      enabled_role_definitions ←
        select_enabled used_variable_names [] definitions;
      let known_role_names := names_of (dicts definitions) in
      let enabled_role_names := names_of enabled_role_definitions in
      Ok (enabled_role_names, known_role_names)
  end.

(** ** The script (lines 44 and 205-243) *)

(** The seven command-line arguments, all required (lines 36-42). *)
Record arguments : Type := Args {
  vars_paths : string;
  src_requirements_yml_path : string;
  src_setup_yml_path : string;
  src_group_vars_yml_path : string;
  dst_requirements_yml_path : string;
  dst_setup_yml_path : string;
  dst_group_vars_yml_path : string
}.

(** [s.split()]: the maximal runs of characters that are no spaces. *)
Fixpoint split_whitespace (s : string) : list string :=
  match s with
  | EmptyString => []
  | String c s' =>
      if Marker.is_space c then split_whitespace s'
      else
        match s' with
        | String d _ =>
            if Marker.is_space d then String c "" :: split_whitespace s'
            else match split_whitespace s' with
                 | word :: words => String c word :: words
                 | [] => [String c ""]
                 end
        | EmptyString => [String c ""]
        end
  end.

(** What stops the script: an exception of the program, or one of its
    collaborators: [open(path, "r")] on a path that is not there,
    [yaml.safe_load] on a text that is no YAML, [open(path, "w")] on a
    path that cannot be opened for writing (an [OSError]: a missing
    directory, no permission). *)
Inductive failure : Type :=
  | Exception (e : exn)
  | FileNotFoundError (path : string)
  | YAMLError (path : string)
  | OSError (path : string).

Inductive outcome (A : Type) : Type :=
  | Done (a : A)
  | Failed (f : failure).
Arguments Done {A} a.
Arguments Failed {A} f.

Global Instance outcome_ret : MRet outcome := λ A a, Done a.

Global Instance outcome_bind : MBind outcome := λ A B k r,
  match r with
  | Done a => k a
  | Failed f => Failed f
  end.

Definition lift {A : Type} (r : result A) : outcome A :=
  match r with
  | Ok a => Done a
  | Raise e => Failed (Exception e)
  end.

(** [read_file(path)] (lines 96-98) on a file system that maps paths to
    texts. *)
Definition read_file (fs : gmap string string) (path : string)
    : outcome string :=
  match fs !! path with
  | Some contents => Done contents
  | None => Failed (FileNotFoundError path)
  end.

(** [write_to_file(contents, path)] (lines 101-103). Which paths
    [open(path, "w")] accepts is a fact of the environment, not of the
    texts: [writable] gives it. On a path it refuses, [open] raises and
    nothing is written. *)
Definition write_to_file (writable : string → bool) (contents path : string)
    (fs : gmap string string) : outcome (gmap string string) :=
  if writable path then Done (<[path := contents]> fs)
  else Failed (OSError path).

Section script.

(** [yaml.safe_load] on the text of a vars file, and on the text of
    requirements.yml seen through the checks of lines 209-221; [None] is a
    text the parser refuses. *)
Variable safe_load : string → option yaml.
Variable safe_load_requirements :
  string → option (checked (list (checked RoleDefinition))).

(** The paths [open(path, "w")] accepts. *)
Variable writable : string → bool.

(** [load_yaml_file(path)] (lines 47-49), for requirements.yml. *)
Definition load_yaml_file (fs : gmap string string) (path : string)
    : outcome (checked (list (checked RoleDefinition))) :=
  text ← read_file fs path;
  match safe_load_requirements text with
  | Some loaded => Done loaded
  | None => Failed (YAMLError path)
  end.

(** The loop of lines 55-65 with its [open] and [yaml.safe_load]: each
    file is opened, parsed and checked before the next one is opened. *)
Fixpoint load_from (fs : gmap string string) (variable_names : gset string)
    (vars_yml_file_paths : list string) : outcome (gset string) :=
  match vars_yml_file_paths with
  | [] => Done variable_names
  | vars_path :: rest =>
      text ← read_file fs vars_path;
      match safe_load text with
      | Some loaded =>
          variable_names' ←
            lift (load_loop variable_names [(vars_path, loaded)]);
          load_from fs variable_names' rest
      | None => Failed (YAMLError vars_path)
      end
  end.

(** Lines 205-229. *)
Definition resolve_from (args : arguments) (fs : gmap string string)
    : outcome (gset string * gset string) :=
  used_variable_names ←
    load_from fs ∅ (split_whitespace (vars_paths args));
  all_role_definitions ← load_yaml_file fs (src_requirements_yml_path args);
  lift (resolve all_role_definitions used_variable_names).

(** [process_file_contents(file_name, ...)] with its [read_file]. *)
Definition process_file (fs : gmap string string) (file_name : string)
    (enabled_role_names known_role_names : gset string) : outcome string :=
  contents ← read_file fs file_name;
  lift (process_file_contents file_name enabled_role_names known_role_names
          contents).

(** The whole script: the file system it leaves and how it ends. Each
    step can stop it; what was written before stays written. Nothing is
    written to [dst_requirements_yml_path] (line 234 is a comment). *)
Definition main (args : arguments) (fs : gmap string string)
    : gmap string string * outcome unit :=
  match resolve_from args fs with
  | Failed f => (fs, Failed f)
  | Done (enabled_role_names, known_role_names) =>
  match process_file fs (src_setup_yml_path args)
          enabled_role_names known_role_names with
  | Failed f => (fs, Failed f)
  | Done setup_yml_processed =>
  match write_to_file writable setup_yml_processed
          (dst_setup_yml_path args) fs with
  | Failed f => (fs, Failed f)
  | Done fs1 =>
  match process_file fs1 (src_group_vars_yml_path args)
          enabled_role_names known_role_names with
  | Failed f => (fs1, Failed f)
  | Done group_vars_yml_processed =>
  match write_to_file writable group_vars_yml_processed
          (dst_group_vars_yml_path args) fs1 with
  | Failed f => (fs1, Failed f)
  | Done fs2 => (fs2, Done ())
  end
  end
  end
  end
  end.

End script.

(** The paths the script reads. *)
Definition sources (args : arguments) : list string :=
  split_whitespace (vars_paths args)
  ++ [src_requirements_yml_path args; src_setup_yml_path args;
      src_group_vars_yml_path args].

(** ** A small installation, for examples *)

Module Example.

Definition parse_vars (text : string) : option yaml :=
  if decide (text = "web_port: 8080")
  then Some (YDict {[ "web_port" := YInt 8080 ]})
  else if decide (text = "") then Some YNone
  else None.

Definition parse_requirements (text : string)
    : option (checked (list (checked RoleDefinition))) :=
  if decide (text = "- {name: web, activation_prefix: web_}, - {name: off}")
  then Some (Is [Is {[ "name" := "web"; "activation_prefix" := "web_" ]};
                 Is {[ "name" := "off" ]}])
  else None.

Definition args : arguments :=
  Args "vars.yml extra.yml" "requirements.yml" "setup.yml" "group_vars.yml"
    "out/requirements.yml" "out/setup.yml" "out/group_vars.yml".

Definition setup_yml : string :=
  Str.join ["- hosts: all"; "# role-specific:web"; "  - role: web";
            "# /role-specific:web"; "# role-specific:off"; "  - role: off";
            "# /role-specific:off"; ""; ""; ""; "  - role: base"].

Definition group_vars_yml : string :=
  Str.join ["base: 1"; "# role-specific:off"; "off_port: 1";
            "# /role-specific:off"].

Definition fs : gmap string string :=
  {[ "vars.yml" := "web_port: 8080"; "extra.yml" := "";
     "requirements.yml"
       := "- {name: web, activation_prefix: web_}, - {name: off}";
     "setup.yml" := setup_yml; "group_vars.yml" := group_vars_yml ]}.

(** Nothing can be written under [readonly/]. *)
Definition writable (path : string) : bool :=
  negb (Str.startswith path "readonly/").

(** The same arguments with the group vars destination under
    [readonly/]. *)
Definition args_readonly : arguments :=
  Args "vars.yml extra.yml" "requirements.yml" "setup.yml" "group_vars.yml"
    "out/requirements.yml" "out/setup.yml" "readonly/group_vars.yml".

(** The same with a group vars file that leaves a block open. *)
Definition fs_unclosed : gmap string string :=
  <[ "group_vars.yml" := Str.join ["base: 1"; "# role-specific:off"] ]> fs.

End Example.

(** * Vocabulary of the specification *)

(** ** Runs of blank lines *)

Definition is_blank (line : string) : bool := bool_decide (line = "").

(** The maximal runs of consecutive lines that are all blank or all
    non-blank, in order. *)
Fixpoint group_runs (lines : list string) : list (list string) :=
  match lines with
  | [] => []
  | line :: rest =>
      match group_runs rest with
      | [] => [[line]]
      | [] :: runs => [line] :: runs
      | (line' :: run) :: runs =>
          if Bool.eqb (is_blank line) (is_blank line')
          then (line :: line' :: run) :: runs
          else [line] :: (line' :: run) :: runs
      end
  end.

(** A run of 3 or more blank lines becomes exactly 2 blank lines; every
    other run stays. *)
Definition squeeze (run : list string) : list string :=
  if decide (Forall (fun line => line = "") run ∧ (3 ≤ List.length run)%nat)
  then [""; ""] else run.

Definition collapse_blank_runs (lines : list string) : list string :=
  concat (squeeze <$> group_runs lines).

(** The lines [compaction] appends for [lines], starting from a counter
    value, and the counter it ends with. *)
Fixpoint compact (count : nat) (lines : list string) : list string :=
  match lines with
  | [] => []
  | line :: rest =>
      if decide (line = "") then
        if (count <=? 1)%nat then line :: compact (count + 1) rest
        else compact count rest
      else line :: compact 0 rest
  end.

Fixpoint count_after (count : nat) (lines : list string) : nat :=
  match lines with
  | [] => count
  | line :: rest =>
      if decide (line = "") then
        if (count <=? 1)%nat then count_after (count + 1) rest
        else count_after count rest
      else count_after 0 rest
  end.

(** Three blank lines in a row, from position [i] on. *)
Definition blank_triple_at (lines : list string) (i : nat) : Prop :=
  lines !! i = Some "" ∧ lines !! S i = Some ""
  ∧ lines !! S (S i) = Some "".

(** ** The lines the retention rule keeps *)

(** The regular lines of [lines] that stand under enabled roles only, when
    the scan enters [lines] with the blocks of [stack] open: a start marker
    opens a block, an end marker closes the innermost one. *)
Fixpoint retained_lines (enabled : gset string) (stack : list string)
    (lines : list string) : list string :=
  match lines with
  | [] => []
  | line :: rest =>
      match Marker.regex_role_specific_block_start line with
      | Some role_name => retained_lines enabled (stack ++ [role_name]) rest
      | None =>
          match Marker.regex_role_specific_block_end line with
          | Some _ => retained_lines enabled (removelast stack) rest
          | None =>
              if decide (Forall (fun role_name => role_name ∈ enabled) stack)
              then line :: retained_lines enabled stack rest
              else retained_lines enabled stack rest
          end
      end
  end.

(** ** The names of the variable sources *)

(** The keys of the top-level mappings among the loaded values. *)
Definition top_level_keys (files : list (string * yaml)) : gset string :=
  ⋃ ((fun file => match file.2 with
                  | YDict entries => dom entries
                  | _ => ∅
                  end) <$> files).

(** ** Well-nested marker lines *)

(** Lines whose blocks are all closed, in LIFO order, with known names. *)
Inductive balanced (known : gset string) : list string → Prop :=
  | balanced_nil : balanced known []
  | balanced_regular line lines :
      Marker.is_regular line → balanced known lines →
      balanced known (line :: lines)
  | balanced_block start_line role_name inner end_line lines :
      Marker.regex_role_specific_block_start start_line = Some role_name →
      Marker.regex_role_specific_block_end end_line = Some role_name →
      role_name ∈ known →
      balanced known inner → balanced known lines →
      balanced known (start_line :: inner ++ end_line :: lines).

(** [unclosed known names lines]: the lines open the blocks [names], the
    outermost first, and close every other block they open. *)
Inductive unclosed (known : gset string) : list string → list string → Prop :=
  | unclosed_done lines : balanced known lines → unclosed known [] lines
  | unclosed_open before start_line role_name names lines :
      balanced known before →
      Marker.regex_role_specific_block_start start_line = Some role_name →
      role_name ∈ known →
      unclosed known names lines →
      unclosed known (role_name :: names) (before ++ start_line :: lines).

(** * Properties *)

(** ** Strings *)

Module StrFacts.
Import Str.

Lemma app_nil_l (s : string) : "" +:+ s = s.
Proof. reflexivity. Qed.

Lemma app_cons (c : ascii) (s t : string) :
  String c s +:+ t = String c (s +:+ t).
Proof. reflexivity. Qed.

Lemma startswith_app (prefix rest : string) :
  startswith (prefix +:+ rest) prefix = true.
Proof.
  induction prefix as [|p prefix IH]; [done|].
  rewrite app_cons. cbn [startswith]. by rewrite Ascii.eqb_refl.
Qed.

(** [startswith] is the exact prefix relation on strings. *)
Lemma startswith_spec (s prefix : string) :
  startswith s prefix = true ↔ ∃ rest, s = prefix +:+ rest.
Proof.
  split.
  - revert s. induction prefix as [|p prefix IH]; intros s H.
    + by exists s.
    + destruct s as [|c s]; cbn [startswith] in H; [done|].
      destruct (Ascii.eqb c p) eqn:E; [|done].
      apply Ascii.eqb_eq in E as ->.
      destruct (IH s H) as [rest ->]. by exists rest.
  - intros [rest ->]. apply startswith_app.
Qed.

Lemma split_nonempty (s : string) : split s ≠ [].
Proof.
  induction s as [|c s IH]; [done|]. cbn [split].
  destruct (Ascii.eqb c newline); [done|]. by destruct (split s).
Qed.

Lemma join_cons (l l' : string) (ls : list string) :
  join (l :: l' :: ls) = l +:+ String newline (join (l' :: ls)).
Proof. reflexivity. Qed.

(** Joining what [split] gives restores the text. *)
Lemma join_split (s : string) : join (split s) = s.
Proof.
  induction s as [|c s IH]; [done|]. cbn [split].
  pose proof (split_nonempty s) as Hne.
  destruct (Ascii.eqb c newline) eqn:E.
  - apply Ascii.eqb_eq in E as ->.
    destruct (split s) as [|l ls]; [done|].
    by rewrite join_cons, IH.
  - destruct (split s) as [|l [|l' ls]]; [done|..].
    + simpl in *. by rewrite IH.
    + rewrite join_cons in *. by rewrite app_cons, IH.
Qed.

(** No element of a [split] holds a newline. *)
Lemma split_no_newline (s : string) : Forall has_no_newline (split s).
Proof.
  induction s as [|c s IH]; cbn [split].
  - constructor; [|constructor]. by intros ?%elem_of_nil.
  - destruct (Ascii.eqb c newline) eqn:E.
    + constructor; [|done]. by intros ?%elem_of_nil.
    + destruct (split s) as [|l ls].
      * constructor; [|constructor]. unfold has_no_newline. simpl.
        intros [Heq|?%elem_of_nil]%elem_of_cons; [subst c|done].
        by rewrite Ascii.eqb_refl in E.
      * apply Forall_cons in IH as [Hl Hls]. constructor; [|done].
        unfold has_no_newline in *. simpl.
        intros [Heq|?]%elem_of_cons; [subst c|done].
        by rewrite Ascii.eqb_refl in E.
Qed.

Lemma split_app_no_newline (l rest : string) :
  has_no_newline l →
  split (l +:+ String newline rest) = l :: split rest.
Proof.
  intros Hl. induction l as [|c l IH].
  - rewrite app_nil_l. cbn [split]. by rewrite Ascii.eqb_refl.
  - rewrite app_cons. cbn [split].
    unfold has_no_newline in *. simpl in Hl.
    apply not_elem_of_cons in Hl as [Hc Hl].
    destruct (Ascii.eqb c newline) eqn:E.
    { by apply Ascii.eqb_eq in E as ->. }
    by rewrite IH.
Qed.

Lemma split_no_newline_id (l : string) : has_no_newline l → split l = [l].
Proof.
  intros Hl. induction l as [|c l IH]; [done|]. cbn [split].
  unfold has_no_newline in *. simpl in Hl.
  apply not_elem_of_cons in Hl as [Hc Hl].
  destruct (Ascii.eqb c newline) eqn:E.
  { by apply Ascii.eqb_eq in E as ->. }
  by rewrite IH.
Qed.

(** Splitting what [join] gives restores the lines, when there is at
    least one and none holds a newline. *)
Lemma split_join (lines : list string) :
  lines ≠ [] → Forall has_no_newline lines → split (join lines) = lines.
Proof.
  intros Hne Hall. induction lines as [|l [|l' ls] IH]; [done|..].
  - apply Forall_cons in Hall as [Hl _]. by apply split_no_newline_id.
  - apply Forall_cons in Hall as [Hl Hall].
    rewrite join_cons, split_app_no_newline by done.
    by rewrite IH.
Qed.

End StrFacts.

(** ** The marker patterns *)

Module MarkerFacts.
Import Str StrFacts Marker.

Lemma skip_spaces_app (ws s : string) :
  all_spaces ws → starts_solid s → skip_spaces (ws +:+ s) = s.
Proof.
  intros Hws Hs. induction ws as [|c ws IH].
  - rewrite app_nil_l. destruct s as [|c s]; [done|].
    cbn [skip_spaces starts_solid] in *. by rewrite Hs.
  - apply Forall_cons in Hws as [Hc Hws].
    rewrite app_cons. cbn [skip_spaces]. rewrite Hc. auto.
Qed.

Lemma skip_spaces_split (s : string) :
  ∃ ws, s = ws +:+ skip_spaces s ∧ all_spaces ws
        ∧ starts_solid (skip_spaces s).
Proof.
  induction s as [|c s (ws & Heq & Hws & Hsolid)].
  - exists "". split; [done|]. split; [constructor|done].
  - cbn [skip_spaces]. destruct (is_space c) eqn:Hc.
    + exists (String c ws). rewrite app_cons, <- Heq.
      split; [done|]. split; [by constructor|done].
    + exists "". split; [done|]. split; [constructor|done].
Qed.

Lemma literal_app (lit s : string) : literal lit (lit +:+ s) = Some s.
Proof.
  induction lit as [|a lit IH]; [done|].
  rewrite app_cons. cbn [literal]. by rewrite Ascii.eqb_refl.
Qed.

Lemma literal_Some (lit s rest : string) :
  literal lit s = Some rest → s = lit +:+ rest.
Proof.
  revert s. induction lit as [|a lit IH]; intros s H.
  - by injection H as ->.
  - destruct s as [|c s]; cbn [literal] in H; [done|].
    destruct (Ascii.eqb c a) eqn:E; [|done].
    apply Ascii.eqb_eq in E as ->. rewrite app_cons. f_equal. auto.
Qed.

Lemma token_app (name tail : string) :
  no_spaces name → tail = "" ∨ tail = String newline "" →
  token (name +:+ tail) = (name, tail).
Proof.
  intros Hname Htail. induction name as [|c name IH].
  - rewrite app_nil_l. by destruct Htail as [-> | ->].
  - apply Forall_cons in Hname as [Hc Hname].
    rewrite app_cons. cbn [token]. rewrite Hc, IH; auto.
Qed.

Lemma token_split (s name rest : string) :
  token s = (name, rest) → s = name +:+ rest ∧ no_spaces name.
Proof.
  revert name rest. induction s as [|c s IH]; intros name rest H.
  - cbn [token] in H. simplify_eq. split; [done|constructor].
  - cbn [token] in H. destruct (is_space c) eqn:Hc.
    + simplify_eq. split; [done|constructor].
    + destruct (token s) as [t r]. injection H as <- <-.
      destruct (IH t r eq_refl) as [-> Ht].
      split; [done|by constructor].
Qed.

Lemma at_end_spec (s : string) :
  at_end s = true ↔ s = "" ∨ s = String newline "".
Proof.
  destruct s as [|c [|c' s]]; simpl.
  - split; [by left|done].
  - rewrite Ascii.eqb_eq.
    split; [intros ->; by right|intros [?|?]; by simplify_eq].
  - split; [done|intros [?|?]; done].
Qed.

(** The matcher decides the pattern, for a keyword that starts with a
    character other than a space (both keywords of the program do). *)
Lemma match_marker_spec (keyword line role_name : string) :
  keyword ≠ "" → starts_solid keyword →
  match_marker keyword line = Some role_name
  ↔ matches keyword line role_name.
Proof.
  intros Hkw_ne Hkw. unfold match_marker. split.
  - intros H.
    destruct (skip_spaces_split line) as (ws1 & Hline & Hws1 & _).
    destruct (literal "#" (skip_spaces line)) as [s1|] eqn:H1; [|done].
    apply literal_Some in H1. simpl in H.
    destruct (skip_spaces_split s1) as (ws2 & Hs1 & Hws2 & _).
    destruct (literal keyword (skip_spaces s1)) as [s2|] eqn:H2; [|done].
    apply literal_Some in H2. simpl in H.
    destruct (skip_spaces_split s2) as (ws3 & Hs2 & Hws3 & _).
    destruct (token (skip_spaces s2)) as [name rest] eqn:H3.
    apply token_split in H3 as [H3 Hname].
    destruct (bool_decide (name ≠ "")) eqn:Hne; [|done].
    destruct (at_end rest) eqn:Hend; [|done].
    injection H as <-. apply bool_decide_eq_true in Hne.
    apply at_end_spec in Hend.
    exists ws1, ws2, ws3, rest. repeat split; try done.
    rewrite Hline at 1. rewrite H1. rewrite Hs1 at 1. rewrite H2.
    rewrite Hs2 at 1. by rewrite H3.
  - intros (ws1 & ws2 & ws3 & tail & -> & Hws1 & Hws2 & Hws3
            & Hname & Hne & Htail).
    rewrite skip_spaces_app, literal_app by done. simpl.
    assert (starts_solid (keyword +:+ ws3 +:+ role_name +:+ tail)).
    { destruct keyword; [done|]. by rewrite app_cons. }
    rewrite skip_spaces_app, literal_app by done. simpl.
    assert (starts_solid (role_name +:+ tail)).
    { destruct role_name; [done|]. rewrite app_cons.
      by apply Forall_cons in Hname as [? _]. }
    rewrite skip_spaces_app, token_app by done.
    rewrite bool_decide_eq_true_2 by done.
    by rewrite (proj2 (at_end_spec tail) Htail).
Qed.

Lemma literal_head_ne (a b : ascii) (l l' s : string) :
  a ≠ b → is_Some (literal (String a l) s) →
  literal (String b l') s = None.
Proof.
  intros Hne [r H]. destruct s as [|c s]; [done|].
  cbn [literal] in *. destruct (Ascii.eqb c a) eqn:E; [|done].
  apply Ascii.eqb_eq in E as ->.
  destruct (Ascii.eqb a b) eqn:E'; [|done].
  by apply Ascii.eqb_eq in E'.
Qed.

Lemma match_marker_head_ne (a b : ascii) (l l' line : string) :
  a ≠ b → is_Some (match_marker (String a l) line) →
  match_marker (String b l') line = None.
Proof.
  unfold match_marker. intros Hne [r H].
  destruct (literal "#" (skip_spaces line)) as [s1|]; [|done].
  cbn [mbind option_bind] in *.
  destruct (literal (String a l) (skip_spaces s1)) eqn:H2; [|done].
  by rewrite (literal_head_ne a b l l').
Qed.

(** No line matches both patterns: after [#] and the spaces, one wants
    [r] and the other [/]. *)
Lemma start_end_disjoint (line role_name : string) :
  regex_role_specific_block_end line = Some role_name →
  regex_role_specific_block_start line = None.
Proof.
  intros H. by apply (match_marker_head_ne "/" "r" "role-specific:").
Qed.

Lemma is_regular_start (line : string) :
  is_regular line → regex_role_specific_block_start line = None.
Proof. by intros [? _]. Qed.

Lemma is_regular_end (line : string) :
  is_regular line → regex_role_specific_block_end line = None.
Proof. by intros [_ ?]. Qed.

(** The blank line is a regular line. *)
Lemma blank_is_regular : is_regular "".
Proof. by split. Qed.

End MarkerFacts.

(** ** One iteration of the loop *)

Section step_facts.

Variable file_name : string.
Variables enabled known : gset string.

Local Abbreviation do_step := (step file_name enabled known).
Local Abbreviation not_enabled := (any_not_enabled enabled).

Lemma any_not_enabled_false (stack : list string) :
  not_enabled stack = false
  ↔ Forall (fun role_name => role_name ∈ enabled) stack.
Proof.
  unfold any_not_enabled. induction stack as [|r stack IH].
  - split; [constructor|done].
  - cbn [existsb]. rewrite orb_false_iff, IH, Forall_cons.
    rewrite bool_decide_eq_false. split.
    + intros [Hr ?]. split; [|done]. by apply dec_stable.
    + intros [Hr ?]. split; [|done]. by intros ?.
Qed.

Lemma any_not_enabled_nil : not_enabled [] = false.
Proof. done. Qed.

Lemma step_start st n line role_name :
  Marker.regex_role_specific_block_start line = Some role_name →
  role_name ∈ known →
  do_step st n line
  = Ok (State (role_specific_stack st ++ [role_name]) (out_lines st)
          (sequential_blank_lines_count st)).
Proof.
  intros Hstart Hknown. destruct st as [stack out count].
  unfold step. rewrite Hstart. by rewrite decide_False by auto.
Qed.

Lemma step_start_unknown st n line role_name :
  Marker.regex_role_specific_block_start line = Some role_name →
  role_name ∉ known →
  do_step st n line
  = Raise (UnknownRoleStart role_name n file_name (sorted known)).
Proof.
  intros Hstart Hknown. destruct st as [stack out count].
  unfold step. rewrite Hstart. by rewrite decide_True.
Qed.

Lemma step_end_unknown st n line role_name :
  Marker.regex_role_specific_block_end line = Some role_name →
  role_name ∉ known →
  do_step st n line
  = Raise (UnknownRoleEnd role_name n file_name (sorted known)).
Proof.
  intros Hend Hknown. destruct st as [stack out count].
  unfold step.
  rewrite (MarkerFacts.start_end_disjoint _ _ Hend), Hend.
  by rewrite decide_True.
Qed.

Lemma step_end_known st n line role_name :
  Marker.regex_role_specific_block_end line = Some role_name →
  role_name ∈ known →
  do_step st n line
  = match last (role_specific_stack st) with
    | None => Raise (EndWithoutStart role_name n file_name)
    | Some last_role_name =>
        if decide (role_name ≠ last_role_name) then
          Raise (EndMismatch role_name n file_name last_role_name)
        else Ok (State (removelast (role_specific_stack st)) (out_lines st)
                   (sequential_blank_lines_count st))
    end.
Proof.
  intros Hend Hknown. destruct st as [stack out count].
  unfold step.
  rewrite (MarkerFacts.start_end_disjoint _ _ Hend), Hend.
  by rewrite decide_False by auto.
Qed.

Lemma step_end_match stack out count n line role_name :
  Marker.regex_role_specific_block_end line = Some role_name →
  role_name ∈ known →
  do_step (State (stack ++ [role_name]) out count) n line
  = Ok (State stack out count).
Proof.
  intros Hend Hknown. rewrite (step_end_known _ _ _ role_name) by done.
  cbn [role_specific_stack]. rewrite last_snoc.
  rewrite decide_False by auto. by rewrite removelast_last.
Qed.

Lemma step_regular st n line :
  Marker.is_regular line →
  do_step st n line
  = Ok (if not_enabled (role_specific_stack st) then st
        else compaction st line).
Proof.
  intros [Hstart Hend]. destruct st as [stack out count].
  unfold step. rewrite Hstart, Hend. cbn [role_specific_stack].
  by destruct (not_enabled stack).
Qed.

Lemma compaction_stack st line :
  role_specific_stack (compaction st line) = role_specific_stack st.
Proof.
  destruct st as [stack out count]. unfold compaction.
  by repeat case_match.
Qed.

Lemma compaction_compact st line :
  compaction st line
  = State (role_specific_stack st)
      (out_lines st ++ compact (sequential_blank_lines_count st) [line])
      (count_after (sequential_blank_lines_count st) [line]).
Proof.
  destruct st as [stack out count]. unfold compaction. simpl.
  repeat case_match; by rewrite ?app_nil_r.
Qed.

End step_facts.

(** ** Runs of blank lines *)

Lemma group_runs_head (line : string) (lines : list string) :
  ∃ run runs, group_runs (line :: lines) = (line :: run) :: runs.
Proof.
  cbn [group_runs]. destruct (group_runs lines) as [|[|line' run] runs];
    [by eexists _, _..|].
  destruct (Bool.eqb _ _); by eexists _, _.
Qed.

(** A list that starts with [k] blank lines and goes on with a non-blank
    one, or ends, has these [k] lines as its first run. *)
Lemma group_runs_blanks (k : nat) (rest : list string) :
  head rest ≠ Some "" →
  group_runs (replicate (S k) "" ++ rest)
  = replicate (S k) "" :: group_runs rest.
Proof.
  intros Hrest. induction k as [|k IH].
  - destruct rest as [|line rest]; [done|].
    destruct (group_runs_head line rest) as (run & runs & Heq).
    change (replicate 1 "" ++ line :: rest) with ("" :: line :: rest).
    cbn [group_runs] in *. rewrite Heq.
    assert (is_blank line = false) as ->.
    { apply bool_decide_eq_false. by intros ->. }
    done.
  - change (replicate (S (S k)) "" ++ rest)
      with ("" :: (replicate (S k) "" ++ rest)).
    cbn [group_runs]. by rewrite IH.
Qed.

Lemma squeeze_blanks (k : nat) :
  squeeze (replicate k "") = replicate (k `min` 2) "".
Proof.
  unfold squeeze. case_decide as H.
  - destruct H as [_ H]. rewrite length_replicate in H.
    by rewrite Nat.min_r by lia.
  - rewrite Nat.min_l; [done|].
    apply not_and_l in H as [H|H]; [|rewrite length_replicate in H; lia].
    destruct H. by apply Forall_replicate.
Qed.

Lemma squeeze_solid (line : string) (run : list string) :
  line ≠ "" → squeeze (line :: run) = line :: run.
Proof.
  intros Hne. unfold squeeze. rewrite decide_False; [done|].
  by intros [[? _]%Forall_cons _].
Qed.

Lemma collapse_blanks (k : nat) (rest : list string) :
  head rest ≠ Some "" →
  collapse_blank_runs (replicate k "" ++ rest)
  = replicate (k `min` 2) "" ++ collapse_blank_runs rest.
Proof.
  intros Hrest. destruct k as [|k]; [done|].
  unfold collapse_blank_runs. rewrite group_runs_blanks by done.
  rewrite fmap_cons. cbn [concat]. by rewrite squeeze_blanks.
Qed.

Lemma collapse_solid (line : string) (lines : list string) :
  line ≠ "" →
  collapse_blank_runs (line :: lines) = line :: collapse_blank_runs lines.
Proof.
  intros Hne. unfold collapse_blank_runs. cbn [group_runs].
  destruct (group_runs lines) as [|[|line' run] runs].
  - simpl. by rewrite squeeze_solid.
  - rewrite !fmap_cons. cbn [concat]. by rewrite squeeze_solid.
  - assert (is_blank line = false) as ->.
    { by apply bool_decide_eq_false. }
    destruct (is_blank line') eqn:Hblank; cbn [Bool.eqb].
    + rewrite !fmap_cons. cbn [concat]. by rewrite squeeze_solid.
    + apply bool_decide_eq_false in Hblank.
      rewrite !fmap_cons. cbn [concat]. by rewrite !squeeze_solid.
Qed.

Lemma compact_blanks (k count : nat) (rest : list string) :
  head rest ≠ Some "" →
  compact count (replicate k "" ++ rest)
  = replicate (k `min` (2 - count)) "" ++ compact 0 rest.
Proof.
  intros Hrest. revert count. induction k as [|k IH]; intros count.
  - destruct rest as [|line rest]; simpl; [done|].
    destruct (decide (line = "")) as [->|]; [by simpl in Hrest|done].
  - change (replicate (S k) "" ++ rest) with ("" :: (replicate k "" ++ rest)).
    cbn [compact]. rewrite decide_True by done.
    destruct (count <=? 1) eqn:Hc.
    + apply Nat.leb_le in Hc. rewrite IH.
      replace (S k `min` (2 - count)) with (S (k `min` (2 - (count + 1))))
        by lia.
      done.
    + apply Nat.leb_gt in Hc. rewrite IH.
      by replace (S k `min` (2 - count)) with (k `min` (2 - count)) by lia.
Qed.

Lemma leading_blanks (lines : list string) :
  ∃ k rest, lines = replicate k "" ++ rest ∧ head rest ≠ Some "".
Proof.
  induction lines as [|line lines (k & rest & -> & Hrest)].
  - by exists 0, [].
  - destruct (decide (line = "")) as [->|Hne].
    + by exists (S k), rest.
    + exists 0, (line :: replicate k "" ++ rest). split; [done|].
      simpl. congruence.
Qed.

(** The compaction counter computes the collapse of blank runs. *)
Lemma compact_collapse (lines : list string) :
  compact 0 lines = collapse_blank_runs lines.
Proof.
  remember (length lines) as n eqn:Hn. revert lines Hn.
  induction n as [n IH] using lt_wf_ind. intros lines ->.
  destruct (leading_blanks lines) as (k & rest & -> & Hrest).
  rewrite compact_blanks, collapse_blanks by done.
  rewrite Nat.sub_0_r. f_equal.
  destruct rest as [|line rest]; [done|].
  assert (line ≠ "") by (simpl in Hrest; congruence).
  rewrite collapse_solid by done. cbn [compact].
  rewrite decide_False by done. f_equal.
  eapply IH; [|done]. rewrite length_app. simpl. lia.
Qed.

(** Lines without three blank lines in a row go through the compaction as
    they are. *)
Lemma compact_id (lines : list string) : ∀ count,
  count ≤ 2 →
  (∀ i, ¬ blank_triple_at (replicate count "" ++ lines) i) →
  compact count lines = lines.
Proof.
  induction lines as [|line lines IH]; intros count Hc Hfree; [done|].
  cbn [compact]. destruct (decide (line = "")) as [->|Hne].
  - destruct (count <=? 1) eqn:Hle.
    + apply Nat.leb_le in Hle. f_equal. apply IH; [lia|].
      intros i. rewrite Nat.add_1_r, replicate_S_end, <- app_assoc.
      apply Hfree.
    + apply Nat.leb_gt in Hle. assert (count = 2) as -> by lia.
      by destruct (Hfree 0).
  - f_equal. apply IH; [lia|]. intros i (H0 & H1 & H2).
    apply (Hfree (count + S i)).
    assert (Hat : ∀ j, (replicate count "" ++ line :: lines)
                         !! (count + S j) = lines !! j).
    { intros j. rewrite lookup_app_r; rewrite length_replicate; [|lia].
      by replace (count + S j - count) with (S j) by lia. }
    unfold blank_triple_at.
    replace (S (count + S i)) with (count + S (S i)) by lia.
    replace (S (count + S (S i))) with (count + S (S (S i))) by lia.
    by rewrite !Hat.
Qed.

(** On at least one line, starting from a counter of zero, the compaction
    keeps at least one line. *)
Lemma compact_nonempty (lines : list string) :
  lines ≠ [] → compact 0 lines ≠ [].
Proof.
  destruct lines as [|line lines]; [done|]. intros _. simpl.
  by case_decide.
Qed.

(** The compaction leaves its own output alone. *)
Lemma compact_idem (lines : list string) : ∀ count,
  compact count (compact count lines) = compact count lines.
Proof.
  induction lines as [|line lines IH]; intros count; [done|].
  cbn [compact]. destruct (decide (line = "")) as [->|Hne].
  - destruct (count <=? 1) eqn:Hc; [|done].
    cbn [compact]. rewrite decide_True, Hc by done. by rewrite IH.
  - cbn [compact]. rewrite decide_False by done. by rewrite IH.
Qed.

Lemma compact_Forall (P : string → Prop) (lines : list string) : ∀ count,
  Forall P lines → Forall P (compact count lines).
Proof.
  induction lines as [|line lines IH]; intros count Hall; [done|].
  apply Forall_cons in Hall as [Hline Hall]. cbn [compact].
  repeat case_match; auto.
Qed.

Lemma retained_lines_Forall (P : string → Prop) enabled (lines : list string) :
  ∀ stack, Forall P lines → Forall P (retained_lines enabled stack lines).
Proof.
  induction lines as [|line lines IH]; intros stack Hall; [done|].
  apply Forall_cons in Hall as [Hline Hall]. cbn [retained_lines].
  repeat case_match; auto.
Qed.

Lemma retained_lines_regular enabled (lines : list string) : ∀ stack,
  Forall Marker.is_regular (retained_lines enabled stack lines).
Proof.
  induction lines as [|line lines IH]; intros stack; [constructor|].
  cbn [retained_lines].
  destruct (Marker.regex_role_specific_block_start line) eqn:Hstart; [done|].
  destruct (Marker.regex_role_specific_block_end line) eqn:Hend; [done|].
  case_decide; [|done]. by constructor.
Qed.

(** With no marker among them and no disabled block open, all lines are
    retained. *)
Lemma retained_lines_all enabled (stack lines : list string) :
  Forall (fun role_name => role_name ∈ enabled) stack →
  Forall Marker.is_regular lines →
  retained_lines enabled stack lines = lines.
Proof.
  intros Hstack. induction 1 as [|line lines [Hstart Hend] _ IH]; [done|].
  cbn [retained_lines]. rewrite Hstart, Hend, decide_True by done.
  by rewrite IH.
Qed.

(** ** The loop *)

Lemma enumerate_app {A : Type} (n : nat) (a b : list A) :
  enumerate n (a ++ b) = enumerate n a ++ enumerate (n + length a) b.
Proof.
  revert n. induction a as [|x a IH]; intros n; simpl.
  - by rewrite Nat.add_0_r.
  - by rewrite IH, Nat.add_succ_r.
Qed.

Lemma enumerate_snd {A : Type} (n : nat) (l : list A) :
  (enumerate n l).*2 = l.
Proof. revert n. induction l as [|x l IH]; intros n; simpl; by rewrite ?IH. Qed.

Lemma compact_cons (count : nat) (line : string) (rest : list string) :
  compact count (line :: rest)
  = compact count [line] ++ compact (count_after count [line]) rest.
Proof. simpl. by repeat case_match. Qed.

Lemma count_after_cons (count : nat) (line : string) (rest : list string) :
  count_after count (line :: rest)
  = count_after (count_after count [line]) rest.
Proof. simpl. by repeat case_match. Qed.

Section scan_facts.

Variable file_name : string.
Variables enabled known : gset string.

Local Abbreviation do_step := (step file_name enabled known).
Local Abbreviation do_scan := (scan file_name enabled known).
Local Abbreviation not_enabled := (any_not_enabled enabled).

Lemma scan_cons st n line rest :
  do_scan st ((n, line) :: rest)
  = match do_step st n line with
    | Ok st' => do_scan st' rest
    | Raise e => Raise e
    end.
Proof. reflexivity. Qed.

Lemma scan_app st a b :
  do_scan st (a ++ b)
  = match do_scan st a with
    | Ok st' => do_scan st' b
    | Raise e => Raise e
    end.
Proof.
  revert st. induction a as [|[n line] a IH]; intros st; [done|].
  rewrite <- app_comm_cons, !scan_cons.
  by destruct (do_step st n line).
Qed.

(** What a successful scan has appended: the compaction of the lines the
    retention rule keeps. Marker lines and dropped lines leave no trace. *)
Lemma scan_retained lines : ∀ n st st',
  do_scan st (enumerate n lines) = Ok st' →
  out_lines st'
  = out_lines st
    ++ compact (sequential_blank_lines_count st)
         (retained_lines enabled (role_specific_stack st) lines)
  ∧ sequential_blank_lines_count st'
    = count_after (sequential_blank_lines_count st)
        (retained_lines enabled (role_specific_stack st) lines).
Proof.
  induction lines as [|line lines IH]; intros n st st' H.
  - simpl in *. injection H as <-. by rewrite app_nil_r.
  - cbn [enumerate retained_lines] in *. rewrite scan_cons in H.
    destruct (Marker.regex_role_specific_block_start line)
      as [role_name|] eqn:Hstart.
    { destruct (decide (role_name ∈ known)) as [Hk|Hk].
      - rewrite (step_start _ _ _ _ _ _ role_name) in H by done.
        by apply IH in H.
      - by rewrite (step_start_unknown _ _ _ _ _ _ role_name) in H. }
    destruct (Marker.regex_role_specific_block_end line)
      as [role_name|] eqn:Hend.
    { destruct (decide (role_name ∈ known)) as [Hk|Hk].
      - rewrite (step_end_known _ _ _ _ _ _ role_name) in H by done.
        destruct (last (role_specific_stack st)) as [top|]; [|done].
        destruct (decide (role_name ≠ top)); [done|].
        by apply IH in H.
      - by rewrite (step_end_unknown _ _ _ _ _ _ role_name) in H. }
    rewrite step_regular in H by done.
    destruct (not_enabled (role_specific_stack st)) eqn:Hen.
    + rewrite decide_False; [by apply IH in H|].
      intros Hall%any_not_enabled_false. congruence.
    + rewrite decide_True by by apply any_not_enabled_false.
      apply IH in H. rewrite compaction_stack in H.
      rewrite compaction_compact in H.
      cbn [role_specific_stack out_lines sequential_blank_lines_count] in H.
      rewrite (compact_cons _ line (retained_lines _ _ _)).
      rewrite (count_after_cons _ line (retained_lines _ _ _)).
      by rewrite app_assoc.
Qed.

(** The stack a successful scan ends with is the one it started with,
    if the lines are well nested. *)
Lemma scan_balanced lines :
  balanced known lines → ∀ n st, ∃ out count,
    do_scan st (enumerate n lines)
    = Ok (State (role_specific_stack st) out count).
Proof.
  induction 1 as [|line lines Hreg _ IH
                  |start_line role_name inner end_line lines
                     Hstart Hend Hk _ IHinner _ IH]; intros n st.
  - destruct st as [stack out count]. by exists out, count.
  - cbn [enumerate]. rewrite scan_cons, step_regular by done.
    destruct (not_enabled (role_specific_stack st)); [apply IH|].
    destruct (IH (S n) (compaction st line)) as (out & count & ->).
    rewrite compaction_stack. by exists out, count.
  - cbn [enumerate]. rewrite scan_cons.
    rewrite (step_start _ _ _ _ _ _ role_name) by done.
    rewrite enumerate_app, scan_app.
    edestruct IHinner as (out1 & count1 & ->).
    cbn [enumerate role_specific_stack]. rewrite scan_cons.
    rewrite (step_end_match _ _ _ _ _ _ _ _ role_name) by done.
    destruct (IH (S (S n + length inner)) (State (role_specific_stack st)
                out1 count1)) as (out & count & ->).
    by exists out, count.
Qed.

(** Blocks left open pile up on the stack in the order of their start
    markers. *)
Lemma scan_unclosed names lines :
  unclosed known names lines → ∀ n st, ∃ out count,
    do_scan st (enumerate n lines)
    = Ok (State (role_specific_stack st ++ names) out count).
Proof.
  induction 1 as [lines Hbal
                 |before start_line role_name names lines
                    Hbal Hstart Hk _ IH]; intros n st.
  - rewrite app_nil_r. by apply scan_balanced.
  - rewrite enumerate_app, scan_app.
    destruct (scan_balanced _ Hbal n st) as (out1 & count1 & ->).
    cbn [enumerate]. rewrite scan_cons.
    rewrite (step_start _ _ _ _ _ _ role_name) by done.
    cbn [role_specific_stack out_lines sequential_blank_lines_count].
    edestruct IH as (out & count & ->).
    cbn [role_specific_stack]. rewrite <- app_assoc.
    by exists out, count.
Qed.

End scan_facts.

(** ** The filter on a whole file *)

Section file_facts.

Variable file_name : string.
Variables enabled known : gset string.

Local Abbreviation do_step := (step file_name enabled known).
Local Abbreviation do_scan := (scan file_name enabled known).
Local Abbreviation filter := (process_file_contents file_name enabled known).

Lemma process_file_contents_eq contents :
  filter contents
  = match do_scan initial (enumerate 1 (Str.split contents)) with
    | Ok st =>
        if decide (length (role_specific_stack st) ≠ 0) then
          Raise (UnclosedBlocks file_name (role_specific_stack st))
        else Ok (Str.join (out_lines st))
    | Raise e => Raise e
    end.
Proof. reflexivity. Qed.

(** A scan of regular lines under enabled roles only runs the compaction
    on each of them. *)
Lemma scan_regular lines : ∀ n st,
  Forall Marker.is_regular lines →
  Forall (fun role_name => role_name ∈ enabled) (role_specific_stack st) →
  do_scan st (enumerate n lines)
  = Ok (State (role_specific_stack st)
          (out_lines st ++ compact (sequential_blank_lines_count st) lines)
          (count_after (sequential_blank_lines_count st) lines)).
Proof.
  induction lines as [|line lines IH]; intros n st Hreg Hen.
  - destruct st. simpl. by rewrite app_nil_r.
  - apply Forall_cons in Hreg as [Hline Hreg].
    cbn [enumerate]. rewrite scan_cons, step_regular by done.
    rewrite (proj2 (any_not_enabled_false _ _) Hen).
    rewrite IH by (by rewrite ?compaction_stack).
    rewrite compaction_compact.
    cbn [role_specific_stack out_lines sequential_blank_lines_count].
    rewrite (compact_cons _ line lines), (count_after_cons _ line lines).
    by rewrite app_assoc.
Qed.

Lemma filter_marker_free contents :
  Forall Marker.is_regular (Str.split contents) →
  filter contents = Ok (Str.join (compact 0 (Str.split contents))).
Proof.
  intros Hreg. rewrite process_file_contents_eq.
  by rewrite scan_regular by (done || constructor).
Qed.

(** What a successful run returns. *)
Lemma filter_output contents out :
  filter contents = Ok out →
  out = Str.join (compact 0 (retained_lines enabled [] (Str.split contents))).
Proof.
  rewrite process_file_contents_eq. intros H.
  destruct (do_scan initial _) as [st|] eqn:Hscan; [|done].
  case_decide; [done|]. injection H as <-.
  by apply scan_retained in Hscan as [-> _].
Qed.

(** The filter returns its own output unchanged. *)
Lemma filter_fixpoint contents out :
  filter contents = Ok out → filter out = Ok out.
Proof.
  intros ->%filter_output.
  set (lines := compact 0 _).
  assert (Forall Marker.is_regular lines) as Hreg.
  { apply compact_Forall, retained_lines_regular. }
  assert (Forall Str.has_no_newline lines) as Hnl.
  { apply compact_Forall, retained_lines_Forall, StrFacts.split_no_newline. }
  destruct (decide (lines = [])) as [Hnil|Hne].
  - rewrite Hnil. by rewrite filter_marker_free
      by (constructor; [apply MarkerFacts.blank_is_regular|constructor]).
  - rewrite filter_marker_free; rewrite StrFacts.split_join by done; [|done].
    unfold lines. by rewrite compact_idem.
Qed.

End file_facts.

(** [sorted] gives the elements of the set in ascending order. *)
Lemma sorted_spec (names : gset string) :
  Sorted String.le (sorted names) ∧ sorted names ≡ₚ elements names.
Proof.
  split; [apply Sorted_merge_sort, _|apply merge_sort_Permutation].
Qed.

Lemma elem_of_sorted (names : gset string) (name : string) :
  name ∈ sorted names ↔ name ∈ names.
Proof.
  destruct (sorted_spec names) as [_ Hperm].
  by rewrite Hperm, elem_of_elements.
Qed.

(** ** The claims on the filter *)

Section filter_claims.

Variable file_name : string.
Variables enabled known : gset string.

Local Abbreviation do_step := (step file_name enabled known).
Local Abbreviation do_scan := (scan file_name enabled known).
Local Abbreviation filter := (process_file_contents file_name enabled known).
Local Abbreviation all_enabled :=
  (Forall (fun role_name => role_name ∈ enabled)).


(** C3. Blank-run compaction works on the retained lines only: what a
    successful run returns is the retained lines with every run of 3 or
    more blank lines cut down to its first 2 members, so marker lines and
    dropped lines neither break nor extend a run. In the loop: a retained
    blank line is appended while the counter is at most 1 and dropped
    from 2 on; a retained non-blank line sets the counter to zero; a
    marker line and a line under a disabled role leave output and
    counter as they are. The lines a, blank, blank, blank, b come out as
    a, blank, blank, b. *)
Theorem blank_run_compaction :
  (∀ contents out,
     filter contents = Ok out →
     out = Str.join (collapse_blank_runs
                       (retained_lines enabled [] (Str.split contents))))
  ∧ (∀ stack out count n,
       all_enabled stack →
       do_step (State stack out count) n ""
       = Ok (if decide (count ≤ 1) then State stack (out ++ [""]) (count + 1)
             else State stack out count))
  ∧ (∀ stack out count n line,
       Marker.is_regular line → line ≠ "" → all_enabled stack →
       do_step (State stack out count) n line
       = Ok (State stack (out ++ [line]) 0))
  ∧ (∀ st n line st',
       ¬ Marker.is_regular line → do_step st n line = Ok st' →
       out_lines st' = out_lines st
       ∧ sequential_blank_lines_count st' = sequential_blank_lines_count st)
  ∧ (∀ st n line,
       Marker.is_regular line → ¬ all_enabled (role_specific_stack st) →
       do_step st n line = Ok st)
  ∧ (∀ contents,
       Str.split contents = ["a"; ""; ""; ""; "b"] →
       filter contents = Ok (Str.join ["a"; ""; ""; "b"])).
Proof.
  split; [|split; [|split; [|split; [|split]]]].
  - intros contents out ->%filter_output. by rewrite compact_collapse.
  - intros stack out count n Hen.
    rewrite step_regular by apply MarkerFacts.blank_is_regular.
    cbn [role_specific_stack].
    rewrite (proj2 (any_not_enabled_false _ _) Hen). simpl.
    case_decide as Hc.
    + by apply Nat.leb_le in Hc as ->.
    + by apply Nat.leb_nle in Hc as ->.
  - intros stack out count n line Hreg Hne Hen.
    rewrite step_regular by done. cbn [role_specific_stack].
    rewrite (proj2 (any_not_enabled_false _ _) Hen). simpl.
    by rewrite decide_False by done.
  - intros st n line st' Hmarker Hstep.
    destruct (Marker.regex_role_specific_block_start line)
      as [role_name|] eqn:Hstart.
    { destruct (decide (role_name ∈ known)) as [Hk|Hk].
      - rewrite (step_start _ _ _ _ _ _ role_name) in Hstep by done.
        by injection Hstep as <-.
      - by rewrite (step_start_unknown _ _ _ _ _ _ role_name) in Hstep. }
    destruct (Marker.regex_role_specific_block_end line)
      as [role_name|] eqn:Hend; [|by destruct Hmarker].
    destruct (decide (role_name ∈ known)) as [Hk|Hk].
    + rewrite (step_end_known _ _ _ _ _ _ role_name) in Hstep by done.
      destruct (last (role_specific_stack st)) as [top|]; [|done].
      case_decide; [done|]. by injection Hstep as <-.
    + by rewrite (step_end_unknown _ _ _ _ _ _ role_name) in Hstep.
  - intros st n line Hreg Hen. rewrite step_regular by done.
    destruct (any_not_enabled _ _) eqn:E; [done|].
    by apply any_not_enabled_false in E.
  - intros contents Hsplit. rewrite filter_marker_free; rewrite Hsplit.
    + done.
    + repeat constructor.
Qed.

(** C7. On a text without marker lines the filter succeeds, and what it
    returns is the text with every run of 3 or more consecutive blank
    lines collapsed to exactly 2 blank lines: the lines of the output are
    the lines of the input with the blank runs collapsed, and a text that
    has no three blank lines in a row comes back as it is. The lines are
    the pieces of [split], so the empty piece after a final newline is a
    blank line. *)
Theorem marker_free_filter (contents : string) :
  Forall Marker.is_regular (Str.split contents) →
  ∃ out,
    filter contents = Ok out
    ∧ out = Str.join (collapse_blank_runs (Str.split contents))
    ∧ Str.split out = collapse_blank_runs (Str.split contents)
    ∧ ((∀ i, ¬ blank_triple_at (Str.split contents) i) → out = contents).
Proof.
  intros Hreg. exists (Str.join (collapse_blank_runs (Str.split contents))).
  rewrite filter_marker_free by done. rewrite <- compact_collapse.
  split; [done|]. split; [done|]. split.
  - apply StrFacts.split_join.
    + apply compact_nonempty, StrFacts.split_nonempty.
    + apply compact_Forall, StrFacts.split_no_newline.
  - intros Hfree. rewrite compact_id by (done || lia).
    apply StrFacts.join_split.
Qed.

(** C8. The filter is idempotent on its own marker-free output: when it
    succeeds on a text and the output holds no marker line, filtering
    the output again, with the same sets, returns the output
    unchanged. *)
Theorem filter_idempotent (contents out : string) :
  filter contents = Ok out →
  Forall Marker.is_regular (Str.split out) →
  filter out = Ok out.
Proof. intros Hout _. by apply (filter_fixpoint _ _ _ contents). Qed.

(** C4. A start or end marker whose role name is not known makes the
    filter fail with the unknown-role error: the iteration on such a line
    raises it from every state, so whatever is enabled and, for an end
    marker, whatever the stack holds; a file with such a line fails, and
    when the scan reaches the line the error is the one of this line.
    The error carries the role name, the 1-based line number, the file
    and the known names sorted. *)
Theorem unknown_role_marker (line role_name : string) :
  role_name ∉ known →
  (Marker.regex_role_specific_block_start line = Some role_name →
     ∀ st n, do_step st n line
             = Raise (UnknownRoleStart role_name n file_name (sorted known)))
  ∧ (Marker.regex_role_specific_block_end line = Some role_name →
       ∀ st n, do_step st n line
               = Raise (UnknownRoleEnd role_name n file_name (sorted known)))
  ∧ (∀ contents i,
       Str.split contents !! i = Some line →
       Marker.regex_role_specific_block_start line = Some role_name
       ∨ Marker.regex_role_specific_block_end line = Some role_name →
       fails (filter contents)
       ∧ (∀ st,
            do_scan initial (enumerate 1 (take i (Str.split contents)))
            = Ok st →
            filter contents
            = Raise (match Marker.regex_role_specific_block_start line with
                     | Some _ =>
                         UnknownRoleStart role_name (S i) file_name
                           (sorted known)
                     | None =>
                         UnknownRoleEnd role_name (S i) file_name
                           (sorted known)
                     end)))
  ∧ Sorted String.le (sorted known)
  ∧ (∀ name, name ∈ sorted known ↔ name ∈ known).
Proof.
  intros Hunknown.
  assert (Hraise : ∀ st n,
            Marker.regex_role_specific_block_start line = Some role_name
            ∨ Marker.regex_role_specific_block_end line = Some role_name →
            do_step st n line
            = Raise (match Marker.regex_role_specific_block_start line with
                     | Some _ =>
                         UnknownRoleStart role_name n file_name (sorted known)
                     | None =>
                         UnknownRoleEnd role_name n file_name (sorted known)
                     end)).
  { intros st n [Hstart|Hend].
    - rewrite Hstart. by apply step_start_unknown.
    - rewrite (MarkerFacts.start_end_disjoint _ _ Hend).
      by apply step_end_unknown. }
  split; [|split; [|split; [|split]]].
  - intros Hstart st n. by apply step_start_unknown.
  - intros Hend st n. by apply step_end_unknown.
  - intros contents i Hi Hmarker.
    pose proof (take_drop_middle _ _ _ Hi) as Hlines.
    assert (length (take i (Str.split contents)) = i) as Hlen.
    { apply lookup_lt_Some in Hi. rewrite length_take. lia. }
    remember (Str.split contents) as lines eqn:Hsplit.
    assert (filter contents
            = match do_scan initial (enumerate 1 (take i lines)) with
              | Ok st =>
                  Raise
                    (match Marker.regex_role_specific_block_start line with
                     | Some _ =>
                         UnknownRoleStart role_name (S i) file_name
                           (sorted known)
                     | None =>
                         UnknownRoleEnd role_name (S i) file_name
                           (sorted known)
                     end)
              | Raise e => Raise e
              end) as ->.
    { rewrite process_file_contents_eq, <- Hsplit.
      rewrite <- Hlines at 1.
      rewrite enumerate_app, scan_app, Hlen.
      destruct (do_scan initial _) as [st|e]; [|done].
      cbn [enumerate]. by rewrite scan_cons, Hraise by done. }
    split.
    + by destruct (do_scan initial _) as [st|e].
    + by intros st ->.
  - apply sorted_spec.
  - intros name. apply elem_of_sorted.
Qed.

(** C5. An end marker with a known role name raises the unbalanced-block
    error exactly when the stack is empty or its top is another name:
    with an empty stack, the error of a close without an open; with
    another name on top, the error that names this top; with its own name
    on top, the block is closed and nothing is raised. So a start marker
    of [A] directly followed by an end marker of a known [B] other than
    [A] raises the error at the end marker. *)
Theorem end_marker_balance (line role_name : string) :
  Marker.regex_role_specific_block_end line = Some role_name →
  role_name ∈ known →
  (∀ st n, fails (do_step st n line)
           ↔ role_specific_stack st = []
             ∨ last (role_specific_stack st) ≠ Some role_name)
  ∧ (∀ st n, role_specific_stack st = [] →
       do_step st n line = Raise (EndWithoutStart role_name n file_name))
  ∧ (∀ st n below top,
       role_specific_stack st = below ++ [top] → top ≠ role_name →
       do_step st n line
       = Raise (EndMismatch role_name n file_name top))
  ∧ (∀ st n below,
       role_specific_stack st = below ++ [role_name] →
       do_step st n line
       = Ok (State below (out_lines st) (sequential_blank_lines_count st)))
  ∧ (∀ st n start_line A rest,
       Marker.regex_role_specific_block_start start_line = Some A →
       A ∈ known → A ≠ role_name →
       do_scan st ((n, start_line) :: (S n, line) :: rest)
       = Raise (EndMismatch role_name (S n) file_name A)).
Proof.
  intros Hend Hknown.
  assert (Hmismatch : ∀ st n below top,
            role_specific_stack st = below ++ [top] → top ≠ role_name →
            do_step st n line
            = Raise (EndMismatch role_name n file_name top)).
  { intros st n below top Hstack Hne.
    rewrite (step_end_known _ _ _ _ _ _ role_name) by done.
    rewrite Hstack, last_snoc. by rewrite decide_True by auto. }
  split; [|split; [|split; [|split]]].
  - intros st n. rewrite (step_end_known _ _ _ _ _ _ role_name) by done.
    destruct (role_specific_stack st) as [|r stack _] using rev_ind.
    + simpl. split; [by left|done].
    + rewrite last_snoc. case_decide as Hne; simpl.
      * split; [|done]. intros _. right. congruence.
      * subst r. split; [done|].
        intros [[_ ?]%app_nil|?]; done.
  - intros st n Hstack.
    rewrite (step_end_known _ _ _ _ _ _ role_name) by done.
    by rewrite Hstack.
  - done.
  - intros st n below Hstack.
    rewrite (step_end_known _ _ _ _ _ _ role_name) by done.
    rewrite Hstack, last_snoc, decide_False by auto.
    by rewrite removelast_last.
  - intros st n start_line A rest Hstart HA Hne.
    rewrite scan_cons, (step_start _ _ _ _ _ _ A) by done.
    rewrite scan_cons.
    by rewrite (Hmismatch _ _ (role_specific_stack st) A).
Qed.

(** C6. At the end of the input a non-empty stack makes the filter fail
    with the unclosed-block error, which carries the stack as it is; an
    empty stack makes it return the output lines joined. The stack holds
    the open blocks in the order of their start markers, so the error
    lists the unclosed role names outermost first; a well-nested text
    goes through. *)
Theorem end_of_input (contents : string) :
  (∀ st,
     do_scan initial (enumerate 1 (Str.split contents)) = Ok st →
     (role_specific_stack st ≠ [] →
        filter contents
        = Raise (UnclosedBlocks file_name (role_specific_stack st)))
     ∧ (role_specific_stack st = [] →
          filter contents = Ok (Str.join (out_lines st))))
  ∧ (∀ names,
       unclosed known names (Str.split contents) → names ≠ [] →
       filter contents = Raise (UnclosedBlocks file_name names))
  ∧ (balanced known (Str.split contents) →
       filter contents
       = Ok (Str.join (collapse_blank_runs
                         (retained_lines enabled []
                            (Str.split contents))))).
Proof.
  split; [|split].
  - intros st Hscan. rewrite process_file_contents_eq, Hscan. split.
    + intros Hne. rewrite decide_True; [done|].
      by destruct (role_specific_stack st).
    + intros ->. by rewrite decide_False by auto.
  - intros names Hopen Hne. rewrite process_file_contents_eq.
    destruct (scan_unclosed file_name enabled _ _ _ Hopen 1 initial)
      as (out & count & ->).
    cbn [initial role_specific_stack app].
    rewrite decide_True; [done|]. by destruct names.
  - intros Hbal. rewrite process_file_contents_eq.
    destruct (scan_balanced file_name enabled _ _ Hbal 1 initial)
      as (out & count & Hscan).
    rewrite Hscan. cbn [initial role_specific_stack].
    rewrite decide_False by auto.
    apply scan_retained in Hscan as [Hout _]. simpl in Hout.
    subst out. simpl. by rewrite compact_collapse.
Qed.

End filter_claims.


Lemma blank_run_compaction_witness :
  Str.split (Str.join ["a"; ""; ""; ""; "b"]) = ["a"; ""; ""; ""; "b"]
  ∧ process_file_contents "setup.yml" ∅ ∅ (Str.join ["a"; ""; ""; ""; "b"])
    = Ok (Str.join ["a"; ""; ""; "b"]).
Proof.
  split; [reflexivity|].
  apply (proj2 (proj2 (proj2 (proj2 (proj2
           (blank_run_compaction "setup.yml" ∅ ∅)))))).
  reflexivity.
Defined.

Lemma marker_free_filter_witness :
  let nl := String Str.newline "" in
  let contents :=
    "a" +:+ nl +:+ nl +:+ nl +:+ nl +:+ nl +:+ "b" +:+ nl +:+ nl +:+ "c" in
  Forall Marker.is_regular (Str.split contents)
  ∧ process_file_contents "group_vars.yml" ∅ ∅ contents
    = Ok ("a" +:+ nl +:+ nl +:+ nl +:+ "b" +:+ nl +:+ nl +:+ "c").
Proof.
  intros nl contents.
  assert (Hreg : Forall Marker.is_regular (Str.split contents))
    by (repeat constructor).
  split; [exact Hreg|].
  destruct (marker_free_filter "group_vars.yml" ∅ ∅ contents Hreg)
    as (out & Hout & Hjoin & _).
  rewrite Hout. f_equal. rewrite Hjoin. reflexivity.
Defined.

Lemma filter_idempotent_witness :
  let contents :=
    Str.join ["a"; "# role-specific:B"; "x"; "# /role-specific:B";
              ""; ""; ""; "b"] in
  let out := Str.join ["a"; ""; ""; "b"] in
  process_file_contents "setup.yml" {["A"]} {["A"; "B"]} contents = Ok out
  ∧ Forall Marker.is_regular (Str.split out)
  ∧ process_file_contents "setup.yml" {["A"]} {["A"; "B"]} out = Ok out.
Proof.
  intros contents out.
  assert (Hout : process_file_contents "setup.yml" {["A"]} {["A"; "B"]}
                   contents = Ok out) by (vm_compute; reflexivity).
  assert (Hreg : Forall Marker.is_regular (Str.split out))
    by (repeat constructor).
  split; [exact Hout|]. split; [exact Hreg|].
  exact (filter_idempotent "setup.yml" {["A"]} {["A"; "B"]} contents out
           Hout Hreg).
Defined.

Lemma unknown_role_marker_witness :
  ("ghost" ∉ ({["web"; "always"; "off"]} : gset string))
  ∧ step "setup.yml" {["web"]} {["web"; "always"; "off"]} initial 1
      "# role-specific:ghost"
    = Raise (UnknownRoleStart "ghost" 1 "setup.yml"
               (sorted {["web"; "always"; "off"]}))
  ∧ sorted {["web"; "always"; "off"]} = ["always"; "off"; "web"].
Proof.
  assert (Hghost : "ghost" ∉ ({["web"; "always"; "off"]} : gset string))
    by set_solver.
  split; [exact Hghost|]. split; [|by vm_compute].
  exact (proj1 (unknown_role_marker "setup.yml" {["web"]}
                  {["web"; "always"; "off"]} "# role-specific:ghost" "ghost"
                  Hghost) eq_refl initial 1).
Defined.

Lemma end_marker_balance_witness :
  Marker.regex_role_specific_block_end "# /role-specific:B" = Some "B"
  ∧ "B" ∈ ({["A"; "B"]} : gset string)
  ∧ scan "setup.yml" ∅ {["A"; "B"]} initial
      (enumerate 1 (Str.split (Str.join ["# role-specific:A";
                                         "# /role-specific:B"])))
    = Raise (EndMismatch "B" 2 "setup.yml" "A").
Proof.
  assert (HB : "B" ∈ ({["A"; "B"]} : gset string)) by set_solver.
  assert (HA : "A" ∈ ({["A"; "B"]} : gset string)) by set_solver.
  assert (Hne : "A" ≠ "B") by discriminate.
  split; [reflexivity|]. split; [exact HB|].
  exact (proj2 (proj2 (proj2 (proj2
           (end_marker_balance "setup.yml" ∅ {["A"; "B"]}
              "# /role-specific:B" "B" eq_refl HB))))
         initial 1 "# role-specific:A" "A" [] eq_refl HA Hne).
Defined.

Lemma end_of_input_witness :
  let contents := Str.join ["# role-specific:A"; "x"; "# role-specific:B"] in
  let known : gset string := {["A"; "B"]} in
  unclosed known ["A"; "B"] (Str.split contents)
  ∧ process_file_contents "setup.yml" ∅ known contents
    = Raise (UnclosedBlocks "setup.yml" ["A"; "B"]).
Proof.
  intros contents known.
  assert (Hopen : unclosed known ["A"; "B"] (Str.split contents)).
  { apply (unclosed_open known [] "# role-specific:A" "A" ["B"]
             ["x"; "# role-specific:B"]);
      [constructor|reflexivity|set_solver|].
    apply (unclosed_open known ["x"] "# role-specific:B" "B" [] []);
      [|reflexivity|set_solver|repeat constructor].
    apply balanced_regular; [by split|constructor]. }
  split; [exact Hopen|].
  refine (proj1 (proj2 (end_of_input "setup.yml" ∅ known contents))
            ["A"; "B"] Hopen _).
  discriminate.
Defined.

(** ** Role activation *)

Lemma any_startswith_spec (prefix : string) (names : gset string) :
  any_startswith prefix names = true
  ↔ ∃ var_name, var_name ∈ names ∧ ∃ rest, var_name = prefix +:+ rest.
Proof.
  unfold any_startswith. rewrite existsb_exists. split.
  - intros (x & Hin & Hx). exists x. split.
    + apply elem_of_elements. by apply list_elem_of_In.
    + by apply StrFacts.startswith_spec.
  - intros (x & Hin & Hx). exists x. split.
    + apply list_elem_of_In. by apply elem_of_elements.
    + by apply StrFacts.startswith_spec.
Qed.

(** C1. The activation predicate of a role definition: without
    [activation_prefix] the role is not enabled; with the empty string it is
    enabled for every set of variable names, the empty set included; with a
    non-empty prefix [P] it is enabled iff some used variable name is [P]
    followed by some rest (an exact, case-sensitive prefix match). *)
Theorem activation_predicate
    (role_definition : RoleDefinition) (used_variable_names : gset string) :
  (role_definition !! "activation_prefix" = None →
     is_role_definition_in_use role_definition used_variable_names = false)
  ∧ (role_definition !! "activation_prefix" = Some "" →
       is_role_definition_in_use role_definition used_variable_names = true
       ∧ is_role_definition_in_use role_definition ∅ = true)
  ∧ (∀ P, P ≠ "" → role_definition !! "activation_prefix" = Some P →
       (is_role_definition_in_use role_definition used_variable_names = true
        ↔ ∃ var_name, var_name ∈ used_variable_names
                      ∧ ∃ rest, var_name = P +:+ rest)).
Proof.
  unfold is_role_definition_in_use. split; [|split].
  - intros Habsent. by rewrite Habsent.
  - intros Hempty. by rewrite Hempty.
  - intros P HP Hprefix. rewrite Hprefix.
    destruct (decide (P = "")); [done|]. apply any_startswith_spec.
Qed.

Lemma activation_predicate_witness :
  let role_definition : RoleDefinition :=
    {[ "name" := "postgres"; "activation_prefix" := "db_" ]} in
  let used_variable_names : gset string := {[ "db_host"; "api_key" ]} in
  "db_" ≠ ""
  ∧ role_definition !! "activation_prefix" = Some "db_"
  ∧ is_role_definition_in_use role_definition used_variable_names = true.
Proof.
  intros role_definition used_variable_names.
  assert (Hne : "db_" ≠ "") by discriminate.
  assert (Hget : role_definition !! "activation_prefix" = Some "db_")
    by reflexivity.
  split; [exact Hne|]. split; [exact Hget|].
  apply (proj2 (proj2 (activation_predicate role_definition
                         used_variable_names)) "db_" Hne Hget).
  exists "db_host". split; [set_solver|by exists "host"].
Defined.

(** ** Loading the variable names *)

(** An empty document adds no name and raises nothing. *)
Lemma load_loop_empty_document names vars_path rest :
  load_loop names ((vars_path, YNone) :: rest)
  = load_loop (names ∪ ∅) rest.
Proof. reflexivity. Qed.

(** A mapping adds its top-level keys. *)
Lemma load_loop_mapping names vars_path entries rest :
  load_loop names ((vars_path, YDict entries) :: rest)
  = load_loop (names ∪ dom entries) rest.
Proof.
  cbn [load_loop]. unfold or_empty_dict. cbn [truthy].
  case_bool_decide as Hempty; [|done]. by rewrite Hempty.
Qed.

(** A value that is true and is not a mapping raises the error of line
    61. *)
Lemma load_loop_truthy_non_mapping names vars_path loaded rest :
  truthy loaded = true → type_of loaded ≠ TDict →
  load_loop names ((vars_path, loaded) :: rest)
  = Raise (VarsNotMapping vars_path (type_of loaded)).
Proof.
  intros Htrue Htype. cbn [load_loop]. unfold or_empty_dict.
  rewrite Htrue. by destruct loaded.
Qed.

(** A value that is false goes through as the empty mapping, whatever its
    type. *)
Lemma load_loop_falsy names vars_path loaded rest :
  truthy loaded = false →
  load_loop names ((vars_path, loaded) :: rest)
  = load_loop (names ∪ ∅) rest.
Proof.
  intros Hfalse. cbn [load_loop]. unfold or_empty_dict. by rewrite Hfalse.
Qed.

(** When the load succeeds, it returns the union of the top-level keys. *)
Lemma load_loop_union files : ∀ names result,
  load_loop names files = Ok result → result = names ∪ top_level_keys files.
Proof.
  induction files as [|[vars_path loaded] files IH]; intros names result H.
  - simplify_eq/=. unfold top_level_keys. simpl. set_solver.
  - unfold top_level_keys in *. rewrite fmap_cons, union_list_cons.
    cbn [snd]. destruct (truthy loaded) eqn:Htruthy.
    + destruct loaded as [| | | | |entries];
        try (by rewrite load_loop_truthy_non_mapping in H).
      rewrite load_loop_mapping in H. apply IH in H. set_solver.
    + rewrite load_loop_falsy in H by done. apply IH in H.
      destruct loaded as [| | | | |entries]; [set_solver..|].
      simpl in Htruthy. apply negb_false_iff, bool_decide_eq_true in Htruthy.
      subst entries. set_solver.
Qed.

(** C9 (the part the code does not keep). A source whose top level is not
    a mapping must be a validation error; yet the empty list, zero, false
    and the empty string are loaded as if they were the empty mapping. *)
Theorem falsy_non_mapping_source_accepted :
  load_combined_variable_names_from_files [("vars.yml", YList [])] = Ok ∅
  ∧ load_combined_variable_names_from_files [("vars.yml", YInt 0)] = Ok ∅
  ∧ load_combined_variable_names_from_files [("vars.yml", YBool false)] = Ok ∅
  ∧ load_combined_variable_names_from_files [("vars.yml", YStr "")] = Ok ∅
  ∧ load_combined_variable_names_from_files [("vars.yml", YList [YInt 1])]
    = Raise (VarsNotMapping "vars.yml" TList).
Proof.
  unfold load_combined_variable_names_from_files.
  repeat split; rewrite ?load_loop_falsy by done; simpl; f_equal; set_solver.
Qed.

(** ** The resolver *)

Lemma select_enabled_sub used definitions : ∀ acc result,
  select_enabled used acc definitions = Ok result →
  ∀ d, d ∈ result → d ∈ acc ∨ d ∈ dicts definitions.
Proof.
  induction definitions as [|[role_definition|got] definitions IH];
    intros acc result H d Hd.
  - injection H as <-. by left.
  - cbn [select_enabled] in H. case_decide; [done|].
    unfold dicts. cbn [omap]. fold (dicts definitions).
    destruct (is_role_definition_in_use role_definition used).
    + destruct (IH _ _ H d Hd) as [Hacc|Hrest].
      * apply elem_of_app in Hacc as [?|?%list_elem_of_singleton];
          [by left|right]. subst. apply list_elem_of_here.
      * right. by apply list_elem_of_further.
    + destruct (IH _ _ H d Hd) as [?|?]; [by left|right].
      by apply list_elem_of_further.
  - done.
Qed.

(** C10. Every enabled role name is a known one: the enabled definitions
    are taken from the list that gives the known names. *)
Theorem enabled_subset_known all_role_definitions used_variable_names
    (enabled_role_names known_role_names : gset string) :
  resolve all_role_definitions used_variable_names
  = Ok (enabled_role_names, known_role_names) →
  enabled_role_names ⊆ known_role_names.
Proof.
  unfold resolve. intros H.
  destruct all_role_definitions as [definitions|got];
    [|by destruct got].
  destruct (select_enabled used_variable_names [] definitions)
    as [enabled_role_definitions|] eqn:Hsel; [|done].
  simpl in H. injection H as <- <-.
  intros name. unfold names_of.
  rewrite !elem_of_list_to_set, !list_elem_of_fmap.
  intros (d & -> & Hd). exists d. split; [done|].
  destruct (select_enabled_sub _ _ _ _ Hsel d Hd) as [Hnil|?]; [|done].
  by apply elem_of_nil in Hnil.
Qed.

Lemma enabled_subset_known_witness :
  let all_role_definitions : checked (list (checked RoleDefinition)) :=
    Is [Is {[ "name" := "web"; "activation_prefix" := "web_" ]};
        Is {[ "name" := "always"; "activation_prefix" := "" ]};
        Is {[ "name" := "off" ]}] in
  let used_variable_names : gset string := {[ "web_port" ]} in
  resolve all_role_definitions used_variable_names
  = Ok ({[ "web"; "always" ]}, {[ "web"; "always"; "off" ]})
  ∧ ({[ "web"; "always" ]} : gset string) ⊆ {[ "web"; "always"; "off" ]}.
Proof.
  intros all_role_definitions used_variable_names.
  assert (Hresolve : resolve all_role_definitions used_variable_names
                     = Ok ({[ "web"; "always" ]},
                           {[ "web"; "always"; "off" ]}))
    by (vm_compute; reflexivity).
  split; [exact Hresolve|].
  exact (enabled_subset_known _ _ _ _ Hresolve).
Defined.

(** * Further properties of the filter *)

Lemma balanced_app known (a b : list string) :
  balanced known a → balanced known b → balanced known (a ++ b).
Proof.
  induction 1 as [|line lines Hreg _ IH
                  |start_line role_name inner end_line lines
                     Hstart Hend Hk Hinner _ _ IH]; intros Hb.
  - done.
  - simpl. constructor; auto.
  - rewrite <- app_comm_cons, <- app_assoc, <- app_comm_cons.
    by apply (balanced_block known start_line role_name); auto.
Qed.

Lemma unclosed_snoc_regular known names lines line :
  unclosed known names lines → Marker.is_regular line →
  unclosed known names (lines ++ [line]).
Proof.
  induction 1 as [lines Hbal|before start_line role_name names lines
                               Hbal Hstart Hk _ IH]; intros Hreg.
  - constructor. apply balanced_app; [done|].
    constructor; [done|constructor].
  - rewrite <- app_assoc, <- app_comm_cons. constructor; auto.
Qed.

Lemma unclosed_snoc_start known names lines line role_name :
  unclosed known names lines →
  Marker.regex_role_specific_block_start line = Some role_name →
  role_name ∈ known →
  unclosed known (names ++ [role_name]) (lines ++ [line]).
Proof.
  induction 1 as [lines Hbal|before start_line r names lines
                               Hbal Hstart Hk _ IH]; intros Hline Hknown.
  - simpl. constructor; [done..|]. constructor. constructor.
  - rewrite <- app_assoc, <- !app_comm_cons. constructor; auto.
Qed.

Lemma unclosed_snoc_end known names lines line role_name :
  unclosed known (names ++ [role_name]) lines →
  Marker.regex_role_specific_block_end line = Some role_name →
  unclosed known names (lines ++ [line]).
Proof.
  intros Hopen Hline. remember (names ++ [role_name]) as all eqn:Hall.
  revert names Hall.
  induction Hopen as [lines Hbal|before start_line r rest_names lines
                                   Hbal Hstart Hk Hrest IH]; intros names Hall.
  - by destruct names.
  - destruct names as [|r' names]; simpl in Hall.
    + injection Hall as -> ->. inversion Hrest as [? Hlines|]; subst.
      constructor. rewrite <- app_assoc, <- app_comm_cons.
      apply balanced_app; [done|].
      apply (balanced_block known start_line role_name lines line []);
        auto using balanced_nil.
    + injection Hall as -> ->.
      rewrite <- app_assoc, <- app_comm_cons. constructor; auto.
Qed.

Section filter_shape.

Variable file_name : string.
Variables enabled known : gset string.

Local Abbreviation do_step := (step file_name enabled known).
Local Abbreviation do_scan := (scan file_name enabled known).
Local Abbreviation filter := (process_file_contents file_name enabled known).

(** The stack of a successful scan from the start of a file is the list
    of the blocks the lines leave open. *)
Lemma scan_unclosed_inv lines : ∀ st,
  do_scan initial (enumerate 1 lines) = Ok st →
  unclosed known (role_specific_stack st) lines.
Proof.
  induction lines as [|line lines IH] using rev_ind; intros st H.
  - injection H as <-. constructor. constructor.
  - rewrite enumerate_app, scan_app in H.
    destruct (do_scan initial (enumerate 1 lines)) as [st0|] eqn:Hscan;
      [|done].
    specialize (IH st0 eq_refl). cbn [enumerate] in H.
    rewrite scan_cons in H.
    destruct (do_step st0 _ line) as [st1|] eqn:Hstep; [|done].
    injection H as ->.
    destruct (Marker.regex_role_specific_block_start line)
      as [role_name|] eqn:Hstart.
    { destruct (decide (role_name ∈ known)) as [Hk|Hk].
      - rewrite (step_start _ _ _ _ _ _ role_name) in Hstep by done.
        injection Hstep as <-. by apply unclosed_snoc_start.
      - by rewrite (step_start_unknown _ _ _ _ _ _ role_name) in Hstep. }
    destruct (Marker.regex_role_specific_block_end line)
      as [role_name|] eqn:Hend.
    { destruct (decide (role_name ∈ known)) as [Hk|Hk].
      - rewrite (step_end_known _ _ _ _ _ _ role_name) in Hstep by done.
        destruct (role_specific_stack st0) as [|top stack _] eqn:Hstack
          using rev_ind; [done|].
        rewrite last_snoc in Hstep. case_decide as Hne; [done|].
        injection Hstep as <-. cbn [role_specific_stack].
        rewrite removelast_last. subst top.
        by apply (unclosed_snoc_end _ _ _ _ role_name).
      - by rewrite (step_end_unknown _ _ _ _ _ _ role_name) in Hstep. }
    rewrite step_regular in Hstep by done.
    assert (role_specific_stack st = role_specific_stack st0) as ->.
    { destruct (any_not_enabled _ _); injection Hstep as <-;
        by rewrite ?compaction_stack. }
    by apply unclosed_snoc_regular.
Qed.

(** What an iteration can raise, and when. *)
Lemma step_error st n line e :
  do_step st n line = Raise e →
  (∃ role_name,
     Marker.regex_role_specific_block_start line = Some role_name
     ∧ (role_name ∉ known)
     ∧ e = UnknownRoleStart role_name n file_name (sorted known))
  ∨ (∃ role_name,
       Marker.regex_role_specific_block_end line = Some role_name
       ∧ (role_name ∉ known)
       ∧ e = UnknownRoleEnd role_name n file_name (sorted known))
  ∨ (∃ role_name,
       Marker.regex_role_specific_block_end line = Some role_name
       ∧ role_name ∈ known ∧ role_specific_stack st = []
       ∧ e = EndWithoutStart role_name n file_name)
  ∨ (∃ role_name below top,
       Marker.regex_role_specific_block_end line = Some role_name
       ∧ role_name ∈ known ∧ role_specific_stack st = below ++ [top]
       ∧ top ≠ role_name
       ∧ e = EndMismatch role_name n file_name top).
Proof.
  intros Hstep.
  destruct (Marker.regex_role_specific_block_start line)
    as [role_name|] eqn:Hstart.
  { destruct (decide (role_name ∈ known)) as [Hk|Hk].
    - by rewrite (step_start _ _ _ _ _ _ role_name) in Hstep.
    - rewrite (step_start_unknown _ _ _ _ _ _ role_name) in Hstep by done.
      injection Hstep as <-. left. by exists role_name. }
  destruct (Marker.regex_role_specific_block_end line)
    as [role_name|] eqn:Hend.
  { destruct (decide (role_name ∈ known)) as [Hk|Hk].
    - rewrite (step_end_known _ _ _ _ _ _ role_name) in Hstep by done.
      destruct (role_specific_stack st) as [|top below _] eqn:Hstack
        using rev_ind.
      + injection Hstep as <-. right. right. left. by exists role_name.
      + rewrite last_snoc in Hstep. case_decide as Hne; [|done].
        injection Hstep as <-. right. right. right.
        exists role_name, below, top. auto.
    - rewrite (step_end_unknown _ _ _ _ _ _ role_name) in Hstep by done.
      injection Hstep as <-. right. left. by exists role_name. }
  rewrite step_regular in Hstep by done. done.
Qed.

(** An error of the scan is the error of one line, after a prefix that
    scans without error. *)
Lemma scan_error lines : ∀ n st e,
  do_scan st (enumerate n lines) = Raise e →
  ∃ i line st_i,
    lines !! i = Some line
    ∧ do_scan st (enumerate n (take i lines)) = Ok st_i
    ∧ do_step st_i (n + i) line = Raise e.
Proof.
  induction lines as [|line lines IH]; intros n st e H; [done|].
  cbn [enumerate] in H. rewrite scan_cons in H.
  destruct (do_step st n line) as [st1|e1] eqn:Hstep.
  - destruct (IH _ _ _ H) as (i & line_i & st_i & Hi & Hpre & Hraise).
    exists (S i), line_i, st_i. split; [done|]. split.
    + cbn [take enumerate]. by rewrite scan_cons, Hstep.
    + by rewrite Nat.add_succ_r.
  - injection H as <-. exists 0, line, st. rewrite Nat.add_0_r. done.
Qed.

(** X1. The filter accepts a text exactly when its marker lines are well
    nested and name known roles only. *)
Theorem filter_accepts_iff_balanced (contents : string) :
  (∃ out, filter contents = Ok out) ↔ balanced known (Str.split contents).
Proof.
  rewrite process_file_contents_eq. split.
  - intros [out H].
    destruct (do_scan initial _) as [st|] eqn:Hscan; [|done].
    apply scan_unclosed_inv in Hscan.
    destruct (role_specific_stack st); [|done].
    by inversion Hscan.
  - intros Hbal.
    destruct (scan_balanced file_name enabled _ _ Hbal 1 initial)
      as (out & count & ->).
    simpl. by eexists.
Qed.

(** X2. Every error of the filter is accurate. An error on a line carries
    this file, the 1-based number of a line that matches the pattern it
    speaks of, and that line's role name; the lines before it scan without
    error, so it is the first line the loop stops at. An unknown-role
    error lists the known names sorted and its name is not among them; an
    end without start comes after well-nested lines, with an empty stack;
    a mismatch names the top of the stack, the innermost block the lines
    before leave open; an unclosed-block error lists the blocks the whole
    text leaves open. The filter raises no other error. *)
Theorem filter_error_sound (contents : string) (e : exn) :
  filter contents = Raise e →
  let lines := Str.split contents in
  match e with
  | UnknownRoleStart role_name n f known_sorted =>
      f = file_name ∧ known_sorted = sorted known ∧ (role_name ∉ known)
      ∧ ∃ i line st, n = S i ∧ lines !! i = Some line
          ∧ Marker.regex_role_specific_block_start line = Some role_name
          ∧ do_scan initial (enumerate 1 (take i lines)) = Ok st
          ∧ unclosed known (role_specific_stack st) (take i lines)
  | UnknownRoleEnd role_name n f known_sorted =>
      f = file_name ∧ known_sorted = sorted known ∧ (role_name ∉ known)
      ∧ ∃ i line st, n = S i ∧ lines !! i = Some line
          ∧ Marker.regex_role_specific_block_end line = Some role_name
          ∧ do_scan initial (enumerate 1 (take i lines)) = Ok st
          ∧ unclosed known (role_specific_stack st) (take i lines)
  | EndWithoutStart role_name n f =>
      f = file_name ∧ role_name ∈ known
      ∧ ∃ i line st, n = S i ∧ lines !! i = Some line
          ∧ Marker.regex_role_specific_block_end line = Some role_name
          ∧ do_scan initial (enumerate 1 (take i lines)) = Ok st
          ∧ role_specific_stack st = []
          ∧ balanced known (take i lines)
  | EndMismatch role_name n f last_role_name =>
      f = file_name ∧ role_name ∈ known ∧ last_role_name ≠ role_name
      ∧ ∃ i line outer st, n = S i ∧ lines !! i = Some line
          ∧ Marker.regex_role_specific_block_end line = Some role_name
          ∧ do_scan initial (enumerate 1 (take i lines)) = Ok st
          ∧ role_specific_stack st = outer ++ [last_role_name]
          ∧ unclosed known (outer ++ [last_role_name]) (take i lines)
  | UnclosedBlocks f names =>
      f = file_name ∧ names ≠ [] ∧ unclosed known names lines
  | _ => False
  end.
Proof.
  intros H lines. rewrite process_file_contents_eq in H. fold lines in H.
  destruct (do_scan initial (enumerate 1 lines)) as [st|e'] eqn:Hscan.
  - case_decide as Hstack; [|done]. injection H as <-.
    split; [done|]. split; [by destruct (role_specific_stack st)|].
    by apply scan_unclosed_inv.
  - injection H as ->.
    destruct (scan_error _ _ _ _ Hscan) as (i & line & st_i & Hi & Hpre & Hr).
    pose proof (scan_unclosed_inv _ _ Hpre) as Hshape.
    destruct (step_error _ _ _ _ Hr)
      as [(r & Hm & Hk & ->)|[(r & Hm & Hk & ->)|[(r & Hm & Hk & Hs & ->)
         |(r & below & top & Hm & Hk & Hs & Hne & ->)]]].
    + repeat split; [done|]. by exists i, line, st_i.
    + repeat split; [done|]. by exists i, line, st_i.
    + repeat split; [done|]. exists i, line, st_i.
      repeat split; [done..|]. rewrite Hs in Hshape. by inversion Hshape.
    + repeat split; [done..|]. exists i, line, below, st_i.
      repeat split; [done..|]. by rewrite <- Hs.
Qed.

End filter_shape.

(** ** What the compaction lets through *)

Lemma compact_sublist (lines : list string) : ∀ count,
  compact count lines `sublist_of` lines.
Proof.
  induction lines as [|line lines IH]; intros count; [done|].
  cbn [compact]. repeat case_match.
  - by apply sublist_skip.
  - by apply sublist_cons.
  - by apply sublist_skip.
Qed.

Lemma retained_lines_sublist enabled (lines : list string) : ∀ stack,
  retained_lines enabled stack lines `sublist_of` lines.
Proof.
  induction lines as [|line lines IH]; intros stack; [done|].
  cbn [retained_lines]. repeat case_match;
    (by apply sublist_skip) || (by apply sublist_cons).
Qed.

(** After [count] blank lines, at most 2, what the compaction appends
    never makes three blank lines in a row. *)
Lemma compact_no_triple (lines : list string) : ∀ count i,
  count ≤ 2 →
  ¬ blank_triple_at (replicate count "" ++ compact count lines) i.
Proof.
  induction lines as [|line lines IH]; intros count i Hc (H0 & H1 & H2).
  - apply lookup_lt_Some in H2.
    rewrite length_app, length_replicate in H2. simpl in H2. lia.
  - cbn [compact] in *. destruct (decide (line = "")) as [->|Hne].
    + destruct (count <=? 1) eqn:Hle.
      * apply Nat.leb_le in Hle. rewrite Nat.add_1_r in H0, H1, H2.
        apply (IH (S count) i); [lia|].
        rewrite replicate_S_end, <- app_assoc. by repeat split.
      * by apply (IH count i).
    + assert (Hat : ∀ j, count ≤ j →
                (replicate count "" ++ line :: compact 0 lines) !! j
                = (line :: compact 0 lines) !! (j - count)).
      { intros j Hj. rewrite lookup_app_r; rewrite length_replicate; done. }
      destruct (decide (i ≤ count)) as [Hi|Hi].
      * destruct (decide (count = i)) as [->|]; [|
          destruct (decide (count = S i)) as [->|]].
        -- rewrite Hat, Nat.sub_diag in H0 by lia. by simplify_eq/=.
        -- rewrite Hat, Nat.sub_diag in H1 by lia. by simplify_eq/=.
        -- assert (count = S (S i)) as -> by lia.
           rewrite Hat, Nat.sub_diag in H2 by lia. by simplify_eq/=.
      * apply (IH 0 (i - count - 1)); [lia|]. simpl.
        rewrite Hat in H0, H1, H2 by lia.
        replace (i - count) with (S (i - count - 1)) in H0 by lia.
        replace (S i - count) with (S (S (i - count - 1))) in H1 by lia.
        replace (S (S i) - count) with (S (S (S (i - count - 1)))) in H2
          by lia.
        by repeat split.
Qed.

Section filter_output_facts.

Variable file_name : string.
Variables enabled known : gset string.

Local Abbreviation do_scan := (scan file_name enabled known).
Local Abbreviation run := (process_file_contents file_name enabled known).

(** X3. What the filter returns is made of lines of the input, in their
    order: none of them is a marker line, none holds a newline, and no
    three of them in a row are blank. Splitting the output gives these
    lines back, unless there is none: then the output is the empty
    text. *)
Theorem filter_output_invariants (contents out : string) :
  run contents = Ok out →
  ∃ kept,
    out = Str.join kept
    ∧ kept `sublist_of` Str.split contents
    ∧ Forall Marker.is_regular kept
    ∧ Forall Str.has_no_newline kept
    ∧ (∀ i, ¬ blank_triple_at kept i)
    ∧ (kept ≠ [] → Str.split out = kept)
    ∧ (kept = [] → out = "").
Proof.
  intros ->%filter_output.
  set (retained := retained_lines enabled [] (Str.split contents)).
  exists (compact 0 retained).
  assert (Hsub : compact 0 retained `sublist_of` Str.split contents).
  { etrans; [apply compact_sublist|apply retained_lines_sublist]. }
  assert (Hnl : Forall Str.has_no_newline (compact 0 retained)).
  { apply compact_Forall, retained_lines_Forall, StrFacts.split_no_newline. }
  split; [done|]. split; [done|]. split.
  { apply compact_Forall, retained_lines_regular. }
  split; [done|]. split.
  { intros i. apply (compact_no_triple retained 0 i). lia. }
  split.
  - intros Hne. by apply StrFacts.split_join.
  - by intros ->.
Qed.

(** X4. A text without marker lines and without three blank lines in a row
    comes back unchanged. *)
Theorem filter_clean_text_unchanged (contents : string) :
  Forall Marker.is_regular (Str.split contents) →
  (∀ i, ¬ blank_triple_at (Str.split contents) i) →
  run contents = Ok contents.
Proof.
  intros Hreg Hfree. rewrite filter_marker_free by done.
  rewrite compact_id by (done || lia). by rewrite StrFacts.join_split.
Qed.

Lemma filter_fixpoint_any (contents out : string) :
  run contents = Ok out →
  ∀ file_name' enabled' known',
    process_file_contents file_name' enabled' known' out = Ok out.
Proof.
  intros ->%filter_output file_name' enabled' known'.
  set (lines := compact 0 _).
  assert (Forall Marker.is_regular lines) as Hreg.
  { apply compact_Forall, retained_lines_regular. }
  assert (Forall Str.has_no_newline lines) as Hnl.
  { apply compact_Forall, retained_lines_Forall, StrFacts.split_no_newline. }
  destruct (decide (lines = [])) as [Hnil|Hne].
  - rewrite Hnil. by rewrite filter_marker_free
      by (constructor; [apply MarkerFacts.blank_is_regular|constructor]).
  - rewrite filter_marker_free; rewrite StrFacts.split_join by done; [|done].
    unfold lines. by rewrite compact_idem.
Qed.

(** X5. The output of a successful run is a fixed point of the filter
    under every file name and every pair of role sets, not only those of
    the run. *)
Theorem filter_output_fixpoint (contents out : string) :
  run contents = Ok out →
  ∀ file_name' enabled' known',
    process_file_contents file_name' enabled' known' out = Ok out.
Proof. apply filter_fixpoint_any. Qed.

(** With every known role enabled, the retention rule keeps all regular
    lines of a text the scan accepts. *)
Lemma retained_lines_all_enabled lines : ∀ n st st',
  known ⊆ enabled →
  do_scan st (enumerate n lines) = Ok st' →
  Forall (fun role_name => role_name ∈ enabled) (role_specific_stack st) →
  retained_lines enabled (role_specific_stack st) lines
  = filter Marker.is_regular lines.
Proof.
  induction lines as [|line lines IH]; intros n st st' Hsub H Hen; [done|].
  cbn [enumerate retained_lines] in *. rewrite scan_cons in H.
  destruct (Marker.regex_role_specific_block_start line)
    as [role_name|] eqn:Hstart.
  { rewrite filter_cons_False by (intros [? _]; congruence).
    destruct (decide (role_name ∈ known)) as [Hk|Hk].
    - rewrite (step_start _ _ _ _ _ _ role_name) in H by done.
      apply IH in H; [done..|]. cbn [role_specific_stack].
      apply Forall_app. split; [done|]. constructor; [|constructor].
      by apply Hsub.
    - by rewrite (step_start_unknown _ _ _ _ _ _ role_name) in H. }
  destruct (Marker.regex_role_specific_block_end line)
    as [role_name|] eqn:Hend.
  { rewrite filter_cons_False by (intros [_ ?]; congruence).
    destruct (decide (role_name ∈ known)) as [Hk|Hk].
    - rewrite (step_end_known _ _ _ _ _ _ role_name) in H by done.
      destruct (role_specific_stack st) as [|top below _] eqn:Hstack
        using rev_ind; [done|].
      rewrite last_snoc in H. case_decide; [done|].
      rewrite removelast_last in *.
      apply IH in H; [done..|]. cbn [role_specific_stack].
      by apply Forall_app in Hen as [? _].
    - by rewrite (step_end_unknown _ _ _ _ _ _ role_name) in H. }
  rewrite filter_cons_True by done.
  rewrite decide_True by done.
  rewrite step_regular in H by done.
  rewrite (proj2 (any_not_enabled_false _ _) Hen) in H.
  apply IH in H; [|done|by rewrite compaction_stack].
  rewrite compaction_stack in H. by rewrite H.
Qed.

(** X6. With every known role enabled, the filter only strips the marker
    lines and collapses the blank runs of what is left. *)
Theorem filter_all_enabled (contents out : string) :
  known ⊆ enabled →
  run contents = Ok out →
  out = Str.join (collapse_blank_runs
                    (filter Marker.is_regular (Str.split contents))).
Proof.
  intros Hsub H. pose proof (filter_output _ _ _ _ _ H) as ->.
  rewrite process_file_contents_eq in H.
  destruct (do_scan initial _) as [st|] eqn:Hscan; [|done].
  apply retained_lines_all_enabled in Hscan; [|done|constructor].
  cbn [initial role_specific_stack] in Hscan.
  by rewrite Hscan, compact_collapse.
Qed.

End filter_output_facts.

(** ** The enabled set and the outcome *)

Section enabled_irrelevant.

Variable file_name : string.
Variables enabled enabled' known : gset string.

(** Two scans that differ in the enabled set only, from states with the
    same stack, end with the same stack or raise the same error. *)
Lemma scan_outcome_enabled lines : ∀ n st st',
  role_specific_stack st = role_specific_stack st' →
  match scan file_name enabled known st (enumerate n lines),
        scan file_name enabled' known st' (enumerate n lines) with
  | Ok a, Ok b => role_specific_stack a = role_specific_stack b
  | Raise x, Raise y => x = y
  | _, _ => False
  end.
Proof.
  induction lines as [|line lines IH]; intros n st st' Hstack; [done|].
  cbn [enumerate]. rewrite !scan_cons.
  destruct (Marker.regex_role_specific_block_start line)
    as [role_name|] eqn:Hstart.
  { destruct (decide (role_name ∈ known)) as [Hk|Hk].
    - rewrite !(step_start _ _ _ _ _ _ role_name) by done.
      apply IH. cbn [role_specific_stack]. by rewrite Hstack.
    - by rewrite !(step_start_unknown _ _ _ _ _ _ role_name) by done. }
  destruct (Marker.regex_role_specific_block_end line)
    as [role_name|] eqn:Hend.
  { destruct (decide (role_name ∈ known)) as [Hk|Hk].
    - rewrite !(step_end_known _ _ _ _ _ _ role_name) by done.
      rewrite Hstack. destruct (last (role_specific_stack st')); [|done].
      case_decide; [done|]. by apply IH.
    - by rewrite !(step_end_unknown _ _ _ _ _ _ role_name) by done. }
  rewrite !step_regular by done. apply IH.
  by repeat case_match; rewrite ?compaction_stack.
Qed.

(** X7. Which roles are enabled decides what is kept, never whether the
    text is accepted: with two enabled sets and the same known set, the
    filter succeeds on both or raises the same error on both. *)
Theorem filter_outcome_enabled_irrelevant (contents : string) :
  match process_file_contents file_name enabled known contents,
        process_file_contents file_name enabled' known contents with
  | Ok _, Ok _ => True
  | Raise x, Raise y => x = y
  | _, _ => False
  end.
Proof.
  rewrite !process_file_contents_eq.
  pose proof (scan_outcome_enabled (Str.split contents) 1 initial initial
                eq_refl) as H.
  destruct (scan file_name enabled known _ _) as [a|x],
    (scan file_name enabled' known _ _) as [b|y]; try done.
  rewrite H. by case_decide.
Qed.

End enabled_irrelevant.

(** ** More on the marker patterns *)

Lemma list_ascii_of_string_app (s t : string) :
  list_ascii_of_string (s +:+ t)
  = list_ascii_of_string s ++ list_ascii_of_string t.
Proof.
  induction s as [|c s IH]; [done|].
  rewrite StrFacts.app_cons. simpl. by rewrite IH.
Qed.

Lemma snoc_or_nil {A : Type} (l : list A) :
  l = [] ∨ ∃ l' x, l = l' ++ [x].
Proof. destruct l as [|x l' _] using rev_ind; eauto. Qed.

Lemma skip_spaces_leading (ws s : string) :
  Marker.all_spaces ws →
  Marker.skip_spaces (ws +:+ s) = Marker.skip_spaces s.
Proof.
  intros Hws. induction ws as [|c ws IH]; [done|].
  apply Forall_cons in Hws as [Hc Hws].
  rewrite StrFacts.app_cons. cbn [Marker.skip_spaces]. rewrite Hc. auto.
Qed.

(** X8. The two patterns say what their regular expressions say: a line
    is a start marker of [role_name] iff it is spaces, [#], spaces, the
    keyword [role-specific:], spaces and the name, a non-empty run of
    characters that are no spaces, with nothing after it but, at most, one
    final newline; an end marker is the same with [/role-specific:]. *)
Theorem marker_patterns_decided (line role_name : string) :
  (Marker.regex_role_specific_block_start line = Some role_name
   ↔ Marker.matches "role-specific:" line role_name)
  ∧ (Marker.regex_role_specific_block_end line = Some role_name
     ↔ Marker.matches "/role-specific:" line role_name).
Proof. split; by apply MarkerFacts.match_marker_spec. Qed.

(** X9. No line is a start marker and an end marker at once, so the order
    of the two stages of the loop decides nothing. *)
Theorem marker_kinds_disjoint (line : string) :
  Marker.regex_role_specific_block_start line = None
  ∨ Marker.regex_role_specific_block_end line = None.
Proof.
  destruct (Marker.regex_role_specific_block_end line) as [role_name|] eqn:H;
    [left|by right].
  by apply (MarkerFacts.start_end_disjoint _ role_name).
Qed.

(** X10. Indentation does not matter: spaces put before a line change
    neither match. *)
Theorem marker_indentation_irrelevant (ws line : string) :
  Marker.all_spaces ws →
  Marker.regex_role_specific_block_start (ws +:+ line)
  = Marker.regex_role_specific_block_start line
  ∧ Marker.regex_role_specific_block_end (ws +:+ line)
    = Marker.regex_role_specific_block_end line.
Proof.
  intros Hws.
  unfold Marker.regex_role_specific_block_start,
    Marker.regex_role_specific_block_end, Marker.match_marker.
  by rewrite skip_spaces_leading.
Qed.

(** X11. A space at the end breaks a marker: a line of a file (no newline
    in it) that ends with a space character matches neither pattern, so
    the filter takes it for content. *)
Theorem trailing_space_not_marker (body : string) (c : ascii) :
  Str.has_no_newline (body +:+ String c "") →
  Marker.is_space c = true →
  Marker.is_regular (body +:+ String c "").
Proof.
  intros Hnl Hc.
  assert (Hno : ∀ keyword, keyword ≠ "" → Marker.starts_solid keyword →
            Marker.match_marker keyword (body +:+ String c "") = None).
  { intros keyword Hne Hsolid.
    destruct (Marker.match_marker keyword _) as [role_name|] eqn:Hm; [|done].
    apply MarkerFacts.match_marker_spec in Hm; [|done..].
    destruct Hm as (ws1 & ws2 & ws3 & tail & Heq & _ & _ & _
                    & Hname & Hnonempty & Htail).
    exfalso. destruct Htail as [->| ->].
    - apply (f_equal list_ascii_of_string) in Heq.
      rewrite !list_ascii_of_string_app in Heq. simpl in Heq.
      rewrite app_nil_r in Heq. unfold Marker.no_spaces in Hname.
      destruct (snoc_or_nil (list_ascii_of_string role_name))
        as [Hnil|(name & d & Hchars)].
      { destruct role_name; [done|discriminate]. }
      rewrite Hchars in Heq, Hname.
      rewrite !app_assoc, app_comm_cons, app_assoc in Heq.
      apply app_inj_tail in Heq as [_ ->].
      apply Forall_app in Hname as [_ Hd].
      rewrite Forall_singleton in Hd. congruence.
    - apply Hnl. rewrite Heq, !list_ascii_of_string_app. simpl.
      rewrite elem_of_app, elem_of_cons, !elem_of_app, list_elem_of_singleton.
      tauto. }
  split; by apply Hno.
Qed.

(** * Further properties of the resolver and the loader *)

(** X12. More variable names never disable a role: a definition in use
    with a set of names is in use with every larger set. *)
Theorem activation_monotone
    (role_definition : RoleDefinition) (used used' : gset string) :
  used ⊆ used' →
  is_role_definition_in_use role_definition used = true →
  is_role_definition_in_use role_definition used' = true.
Proof.
  intros Hsub. unfold is_role_definition_in_use.
  destruct (role_definition !! "activation_prefix") as [prefix|]; [|done].
  case_decide; [done|]. rewrite !any_startswith_spec.
  intros (var_name & Hin & Hprefix). exists var_name. split; [|done].
  by apply Hsub.
Qed.

Lemma select_enabled_app used a b : ∀ acc,
  select_enabled used acc (a ++ b)
  = match select_enabled used acc a with
    | Ok acc' => select_enabled used acc' b
    | Raise e => Raise e
    end.
Proof.
  induction a as [|[d|got] a IH]; intros acc; [done| |done].
  simpl. case_decide; [done|]. by case_match.
Qed.

(** On dicts that all have a name, the loop appends those in use. *)
Lemma select_enabled_valid used (definitions : list RoleDefinition) : ∀ acc,
  Forall (fun d => is_Some (d !! "name")) definitions →
  select_enabled used acc (Is <$> definitions)
  = Ok (acc ++ filter (fun d => is_role_definition_in_use d used = true)
                 definitions).
Proof.
  induction definitions as [|d definitions IH]; intros acc Hall.
  - simpl. by rewrite app_nil_r.
  - apply Forall_cons in Hall as [[name Hname] Hall].
    rewrite fmap_cons. cbn [select_enabled].
    rewrite decide_False by congruence.
    destruct (is_role_definition_in_use d used) eqn:Huse.
    + rewrite IH, filter_cons_True, <- app_assoc by done. done.
    + rewrite IH, filter_cons_False by (done || congruence). done.
Qed.

Lemma dicts_cons_Is d (definitions : list (checked RoleDefinition)) :
  dicts (Is d :: definitions) = d :: dicts definitions.
Proof. reflexivity. Qed.

(** A loop that passes has seen dicts with a name only. *)
Lemma select_enabled_inv used definitions : ∀ acc result,
  select_enabled used acc definitions = Ok result →
  definitions = Is <$> dicts definitions
  ∧ Forall (fun d => is_Some (d !! "name")) (dicts definitions).
Proof.
  induction definitions as [|[d|got] definitions IH]; intros acc result H.
  - split; [done|constructor].
  - cbn [select_enabled] in H. case_decide as Hname; [done|].
    rewrite dicts_cons_Is.
    assert (∃ acc', select_enabled used acc' definitions = Ok result)
      as [acc' H'] by (case_match; eauto).
    destruct (IH _ _ H') as [Heq Hall]. split.
    + rewrite fmap_cons. by f_equal.
    + constructor; [|done]. by apply not_eq_None_Some.
  - done.
Qed.

Lemma dicts_Is (definitions : list RoleDefinition) :
  dicts (Is <$> definitions) = definitions.
Proof.
  induction definitions as [|d definitions IH]; [done|].
  by rewrite fmap_cons, dicts_cons_Is, IH.
Qed.

Lemma elem_of_names_of (definitions : list RoleDefinition) (name : string) :
  Forall (fun d => is_Some (d !! "name")) definitions →
  name ∈ names_of definitions
  ↔ ∃ d, d ∈ definitions ∧ d !! "name" = Some name.
Proof.
  intros Hall. unfold names_of.
  rewrite elem_of_list_to_set, list_elem_of_fmap. split.
  - intros (d & -> & Hd). exists d. split; [done|].
    rewrite Forall_forall in Hall. destruct (Hall d Hd) as [name Hname].
    by rewrite (lookup_total_correct _ _ _ Hname).
  - intros (d & Hd & Hname). exists d. split; [|done].
    by rewrite (lookup_total_correct _ _ _ Hname).
Qed.

(** X13. The resolver succeeds exactly on a list whose entries are all
    dicts with a name, whatever the variable names. Then a name is known
    iff some definition carries it, and enabled iff some definition that
    carries it is in use: of two definitions with one name, one in use is
    enough. *)
Theorem resolve_names all_role_definitions used_variable_names
    (enabled_role_names known_role_names : gset string) :
  resolve all_role_definitions used_variable_names
  = Ok (enabled_role_names, known_role_names)
  ↔ ∃ definitions,
      all_role_definitions = Is (Is <$> definitions)
      ∧ Forall (fun d => is_Some (d !! "name")) definitions
      ∧ known_role_names = names_of definitions
      ∧ enabled_role_names
        = names_of (filter (fun d => is_role_definition_in_use d
                                       used_variable_names = true)
                      definitions).
Proof.
  unfold resolve. split.
  - intros H. destruct all_role_definitions as [entries|got];
      [|by destruct got].
    destruct (select_enabled used_variable_names [] entries)
      as [selected|] eqn:Hsel; [|done].
    simpl in H. injection H as <- <-.
    destruct (select_enabled_inv _ _ _ _ Hsel) as [Heq Hall].
    exists (dicts entries). split; [by f_equal|]. split; [done|].
    split; [done|].
    rewrite Heq, select_enabled_valid in Hsel by done.
    by injection Hsel as <-.
  - intros (definitions & -> & Hall & -> & ->).
    rewrite select_enabled_valid by done. simpl. by rewrite dicts_Is.
Qed.

(** X14. The names the resolver gives, read on the definitions: a name is
    known iff a definition has it, enabled iff a definition that has it is
    in use. *)
Theorem resolve_membership (definitions : list RoleDefinition)
    used_variable_names (enabled_role_names known_role_names : gset string) :
  resolve (Is (Is <$> definitions)) used_variable_names
  = Ok (enabled_role_names, known_role_names) →
  ∀ name,
    (name ∈ known_role_names
     ↔ ∃ d, d ∈ definitions ∧ d !! "name" = Some name)
    ∧ (name ∈ enabled_role_names
       ↔ ∃ d, d ∈ definitions ∧ d !! "name" = Some name
              ∧ is_role_definition_in_use d used_variable_names = true).
Proof.
  unfold resolve. intros H name.
  destruct (select_enabled used_variable_names [] (Is <$> definitions))
    as [selected|] eqn:Hsel; [|done].
  simpl in H. injection H as <- <-.
  destruct (select_enabled_inv _ _ _ _ Hsel) as [_ Hall].
  rewrite dicts_Is in *.
  rewrite select_enabled_valid in Hsel by done. injection Hsel as <-.
  split; [by apply elem_of_names_of|].
  rewrite elem_of_names_of.
  - split.
    + intros (d & [Huse Hd]%list_elem_of_filter & Hname). by exists d.
    + intros (d & Hd & Hname & Huse). exists d. split; [|done].
      by apply list_elem_of_filter.
  - apply Forall_forall. intros d [_ Hd]%list_elem_of_filter.
    rewrite Forall_forall in Hall. by apply Hall.
Qed.

(** X15. The first entry that is not a dict with a name decides the error
    of the resolver, whatever comes after it. *)
Theorem resolve_first_invalid (valid : list RoleDefinition)
    (rest : list (checked RoleDefinition)) used_variable_names :
  Forall (fun d => is_Some (d !! "name")) valid →
  (∀ got,
     resolve (Is ((Is <$> valid) ++ IsNot got :: rest)) used_variable_names
     = Raise (RoleDefinitionNotDict got))
  ∧ (∀ d, d !! "name" = None →
       resolve (Is ((Is <$> valid) ++ Is d :: rest)) used_variable_names
       = Raise (RoleDefinitionWithoutName d)).
Proof.
  intros Hall. unfold resolve. split.
  - intros got. by rewrite select_enabled_app, select_enabled_valid.
  - intros d Hname. rewrite select_enabled_app, select_enabled_valid by done.
    cbn [select_enabled]. by rewrite decide_True.
Qed.

Lemma names_of_Permutation (definitions definitions' : list RoleDefinition) :
  definitions ≡ₚ definitions' → names_of definitions = names_of definitions'.
Proof.
  intros Hperm. unfold names_of. apply set_eq. intros name.
  by rewrite !elem_of_list_to_set, Hperm.
Qed.

(** X26. The order of the role definitions carries no weight: a
    reordered list resolves to the same two sets. *)
Theorem resolve_order_irrelevant (definitions definitions' : list RoleDefinition)
    used_variable_names (names : gset string * gset string) :
  definitions ≡ₚ definitions' →
  resolve (Is (Is <$> definitions)) used_variable_names = Ok names →
  resolve (Is (Is <$> definitions')) used_variable_names = Ok names.
Proof.
  unfold resolve. intros Hperm H.
  destruct (select_enabled used_variable_names [] (Is <$> definitions))
    as [selected|] eqn:Hsel; [|done].
  destruct (select_enabled_inv _ _ _ _ Hsel) as [_ Hall].
  rewrite !dicts_Is in *. cbn [mbind result_bind] in H. injection H as <-.
  rewrite select_enabled_valid in Hsel by done. injection Hsel as <-.
  rewrite select_enabled_valid by (by rewrite <- Hperm).
  cbn [mbind result_bind]. f_equal. f_equal.
  - apply names_of_Permutation. by rewrite Hperm.
  - by apply names_of_Permutation.
Qed.

Lemma load_loop_app a b : ∀ names,
  load_loop names (a ++ b)
  = match load_loop names a with
    | Ok names' => load_loop names' b
    | Raise e => Raise e
    end.
Proof.
  induction a as [|[vars_path loaded] a IH]; intros names; [done|].
  rewrite <- app_comm_cons. cbn [load_loop].
  destruct (or_empty_dict loaded); auto.
Qed.

(** The loop passes over values that are false or mappings. *)
Lemma load_loop_acceptable files : ∀ names,
  Forall (fun file => truthy file.2 = false ∨ type_of file.2 = TDict) files →
  load_loop names files = Ok (names ∪ top_level_keys files).
Proof.
  induction files as [|[vars_path loaded] files IH]; intros names Hall.
  - unfold top_level_keys. simpl. f_equal. set_solver.
  - apply Forall_cons in Hall as [Hok Hall]. cbn [snd] in Hok.
    unfold top_level_keys in *. rewrite fmap_cons, union_list_cons.
    cbn [snd]. destruct (truthy loaded) eqn:Htruthy.
    + destruct Hok as [?|Hdict]; [done|].
      destruct loaded as [| | | | |entries]; try done.
      rewrite load_loop_mapping, IH by done. f_equal. set_solver.
    + rewrite load_loop_falsy, IH by done. f_equal.
      destruct loaded as [| | | | |entries]; [set_solver..|].
      simpl in Htruthy. apply negb_false_iff, bool_decide_eq_true in Htruthy.
      subst entries. set_solver.
Qed.

(** A loop that passes has seen values that are false or mappings. *)
Lemma load_loop_inv files : ∀ acc names,
  load_loop acc files = Ok names →
  Forall (fun file => truthy file.2 = false ∨ type_of file.2 = TDict) files.
Proof.
  induction files as [|[vars_path loaded] files IH]; intros acc names H;
    [constructor|].
  destruct (truthy loaded) eqn:Htruthy.
  - destruct loaded as [| | | | |entries];
      try (by rewrite load_loop_truthy_non_mapping in H).
    rewrite load_loop_mapping in H.
    constructor; [by right|by eapply IH].
  - rewrite load_loop_falsy in H by done.
    constructor; [by left|by eapply IH].
Qed.

Lemma top_level_keys_Permutation (files files' : list (string * yaml)) :
  files ≡ₚ files' → top_level_keys files = top_level_keys files'.
Proof.
  intros Hperm. unfold top_level_keys. apply set_eq. intros name.
  rewrite !elem_of_union_list. by setoid_rewrite Hperm.
Qed.

(** X16. The load succeeds exactly when every loaded value is a mapping
    or is false, and then it returns the union of the keys of the
    mappings. *)
Theorem load_vars_success (files : list (string * yaml))
    (names : gset string) :
  load_combined_variable_names_from_files files = Ok names
  ↔ Forall (fun file => truthy file.2 = false ∨ type_of file.2 = TDict)
      files
    ∧ names = top_level_keys files.
Proof.
  unfold load_combined_variable_names_from_files. split.
  - intros H. split; [by eapply load_loop_inv|].
    apply load_loop_union in H. set_solver.
  - intros [Hall ->]. rewrite load_loop_acceptable by done.
    f_equal. set_solver.
Qed.

(** X17. The first value that is true without being a mapping decides the
    error of the load: it carries the path of this file and the type of
    the value, whatever comes after it. *)
Theorem load_vars_first_error (before rest : list (string * yaml))
    (vars_path : string) (loaded : yaml) :
  Forall (fun file => truthy file.2 = false ∨ type_of file.2 = TDict)
    before →
  truthy loaded = true → type_of loaded ≠ TDict →
  load_combined_variable_names_from_files
    (before ++ (vars_path, loaded) :: rest)
  = Raise (VarsNotMapping vars_path (type_of loaded)).
Proof.
  intros Hbefore Htruthy Htype.
  unfold load_combined_variable_names_from_files.
  rewrite load_loop_app, load_loop_acceptable by done.
  by apply load_loop_truthy_non_mapping.
Qed.

(** X18. The order of the variable files does not matter to a load that
    succeeds: every reordering succeeds with the same names. *)
Theorem load_vars_order_irrelevant (files files' : list (string * yaml))
    (names : gset string) :
  files ≡ₚ files' →
  load_combined_variable_names_from_files files = Ok names →
  load_combined_variable_names_from_files files' = Ok names.
Proof.
  unfold load_combined_variable_names_from_files. intros Hperm H.
  pose proof (load_loop_inv _ _ _ H) as Hall.
  apply load_loop_union in H as ->.
  rewrite load_loop_acceptable by (by rewrite <- Hperm).
  by rewrite (top_level_keys_Permutation _ _ Hperm).
Qed.

(** * Properties of the script *)

(** ** Splitting the list of paths *)

Lemma string_app_nil_r (s : string) : s +:+ "" = s.
Proof.
  induction s as [|c s IH]; [done|]. by rewrite StrFacts.app_cons, IH.
Qed.

Lemma split_whitespace_word (word rest : string) :
  word ≠ "" → Marker.no_spaces word →
  rest = "" ∨ (∃ c rest', rest = String c rest' ∧ Marker.is_space c = true) →
  split_whitespace (word +:+ rest) = word :: split_whitespace rest.
Proof.
  intros Hne Hword Hrest. induction word as [|c word IH]; [done|].
  apply Forall_cons in Hword as [Hc Hword].
  rewrite StrFacts.app_cons. cbn [split_whitespace]. rewrite Hc.
  destruct word as [|c' word].
  - rewrite StrFacts.app_nil_l.
    destruct Hrest as [->|(d & rest' & -> & Hd)]; [done|]. by rewrite Hd.
  - rewrite StrFacts.app_cons in *.
    pose proof Hword as [Hc' _]%Forall_cons. rewrite Hc'.
    by rewrite IH.
Qed.

(** X19. [split_whitespace] gives words: none is empty and none holds a
    space; and it gives back the words of a list joined with single
    blanks, so paths written with blanks between them are recovered. *)
Theorem split_whitespace_words (s : string) (words : list string) :
  Forall (fun word => word ≠ "" ∧ Marker.no_spaces word)
    (split_whitespace s)
  ∧ (Forall (fun word => word ≠ "" ∧ Marker.no_spaces word) words →
     split_whitespace (String.concat " " words) = words).
Proof.
  split.
  - induction s as [|c s IH]; [constructor|].
    cbn [split_whitespace]. destruct (Marker.is_space c) eqn:Hc; [done|].
    destruct s as [|d s].
    + constructor; [|constructor]. split; [done|].
      constructor; [done|constructor].
    + destruct (Marker.is_space d) eqn:Hd.
      * constructor; [|done]. split; [done|].
        constructor; [done|constructor].
      * destruct (split_whitespace (String d s)) as [|word rest].
        -- constructor; [|constructor]. split; [done|].
           constructor; [done|constructor].
        -- apply Forall_cons in IH as [[_ Hword] Hrest].
           constructor; [|done]. split; [done|]. by constructor.
  - induction 1 as [|word [|word' rest] [Hne Hword] Hall IH]; [done|..].
    + cbn [String.concat]. rewrite <- (string_app_nil_r word) at 1.
      by rewrite split_whitespace_word by auto.
    + cbn [String.concat] in *.
      rewrite split_whitespace_word; [|done..|right; by eexists _, _].
      f_equal. exact IH.
Qed.

(** ** Reads, writes and the order of the steps *)

Section script_facts.

Variable safe_load : string → option yaml.
Variable safe_load_requirements :
  string → option (checked (list (checked RoleDefinition))).

Variable writable : string → bool.

Local Abbreviation run := (main safe_load safe_load_requirements writable).
Local Abbreviation write := (write_to_file writable).
Local Abbreviation resolving := (resolve_from safe_load safe_load_requirements).

Lemma read_file_agree (fs fs' : gmap string string) path :
  fs !! path = fs' !! path → read_file fs path = read_file fs' path.
Proof. unfold read_file. by intros ->. Qed.

Lemma load_from_agree (fs fs' : gmap string string) paths : ∀ names,
  (∀ path, path ∈ paths → fs !! path = fs' !! path) →
  load_from safe_load fs names paths = load_from safe_load fs' names paths.
Proof.
  induction paths as [|path paths IH]; intros names Hagree; [done|].
  cbn [load_from].
  rewrite (read_file_agree fs fs' path) by (apply Hagree; left).
  destruct (read_file fs' path) as [text|]; [|done].
  cbn [mbind outcome_bind].
  destruct (safe_load text) as [loaded|]; [|done].
  destruct (lift (load_loop names [(path, loaded)])) as [names'|]; [|done].
  cbn [mbind outcome_bind]. apply IH. intros p Hp. apply Hagree. by right.
Qed.

Lemma resolve_from_agree (fs fs' : gmap string string) args :
  (∀ path, path ∈ sources args → fs !! path = fs' !! path) →
  resolving args fs = resolving args fs'.
Proof.
  intros Hagree. unfold resolve_from, load_yaml_file, sources in *.
  rewrite (load_from_agree fs fs').
  2:{ intros p Hp. apply Hagree, elem_of_app. by left. }
  rewrite (read_file_agree fs fs' (src_requirements_yml_path args)); [done|].
  apply Hagree. set_solver.
Qed.

Lemma process_file_agree (fs fs' : gmap string string) path enabled known :
  fs !! path = fs' !! path →
  process_file fs path enabled known = process_file fs' path enabled known.
Proof. intros H. unfold process_file. by rewrite (read_file_agree fs fs'). Qed.

(** When every vars file is there and parses, the loading of the script
    is the loop on the parsed values. *)
Lemma load_from_loaded (fs : gmap string string)
    (files : list (string * yaml)) : ∀ names,
  Forall (fun file => ∃ text, fs !! file.1 = Some text
                              ∧ safe_load text = Some file.2) files →
  load_from safe_load fs names files.*1 = lift (load_loop names files).
Proof.
  induction files as [|[path loaded] files IH]; intros names Hall; [done|].
  apply Forall_cons in Hall as [(text & Hread & Hparse) Hall].
  cbn [fst snd] in *. rewrite fmap_cons. cbn [fst load_from].
  unfold read_file. rewrite Hread. cbn [mbind outcome_bind].
  rewrite Hparse.
  change ((path, loaded) :: files) with ([(path, loaded)] ++ files).
  rewrite (load_loop_app [(path, loaded)] files).
  destruct (load_loop names [(path, loaded)]) as [names'|]; [|done].
  cbn [lift mbind outcome_bind]. by apply IH.
Qed.

(** X20. With all vars files there and parsed, the script loads the
    variable names as [load_combined_variable_names_from_files] does on
    the parsed values, file by file in the order of the paths. *)
Theorem script_loads_vars (fs : gmap string string)
    (files : list (string * yaml)) :
  Forall (fun file => ∃ text, fs !! file.1 = Some text
                              ∧ safe_load text = Some file.2) files →
  load_from safe_load fs ∅ files.*1
  = lift (load_combined_variable_names_from_files files).
Proof. apply load_from_loaded. Qed.

(** X21. The first vars file that is missing stops the script with
    [FileNotFoundError], when the files before it are there, parse, and
    are mappings or false: nothing is read after it and nothing is
    written. *)
Theorem script_missing_vars_file (args : arguments)
    (fs : gmap string string) (before : list (string * yaml))
    (missing : string) (after : list string) :
  split_whitespace (vars_paths args) = before.*1 ++ missing :: after →
  Forall (fun file => ∃ text, fs !! file.1 = Some text
                              ∧ safe_load text = Some file.2) before →
  Forall (fun file => truthy file.2 = false ∨ type_of file.2 = TDict)
    before →
  fs !! missing = None →
  run args fs = (fs, Failed (FileNotFoundError missing)).
Proof.
  intros Hpaths Hread Hok Hmissing. unfold main, resolve_from.
  rewrite Hpaths.
  assert (∀ a b names,
            load_from safe_load fs names (a ++ b)
            = match load_from safe_load fs names a with
              | Done names' => load_from safe_load fs names' b
              | Failed f => Failed f
              end) as Happ.
  { induction a as [|p a IH]; intros b names; [done|].
    rewrite <- app_comm_cons. cbn [load_from].
    destruct (read_file fs p) as [text|]; [|done].
    cbn [mbind outcome_bind].
    destruct (safe_load text) as [loaded|]; [|done].
    destruct (lift (load_loop names [(p, loaded)])) as [names'|]; [|done].
    cbn [mbind outcome_bind]. apply IH. }
  rewrite Happ, load_from_loaded, load_loop_acceptable by done.
  simpl. unfold read_file. by rewrite Hmissing.
Qed.

(** X22. The script writes to its two destinations only: every other path,
    [dst_requirements_yml_path] among them, holds after the run what it
    held before, however the run ends. *)
Theorem script_frame (args : arguments) (fs : gmap string string)
    (path : string) :
  path ≠ dst_setup_yml_path args → path ≠ dst_group_vars_yml_path args →
  (run args fs).1 !! path = fs !! path.
Proof.
  intros Hsetup Hgroup. unfold main, write_to_file.
  destruct (resolving args fs) as [[enabled known]|]; [|done].
  destruct (process_file fs _ enabled known) as [setup|]; [|done].
  destruct (writable (dst_setup_yml_path args)); [|done].
  destruct (process_file _ _ enabled known) as [group|]; simpl.
  - destruct (writable (dst_group_vars_yml_path args)); simpl.
    + by rewrite !lookup_insert_ne.
    + by rewrite lookup_insert_ne.
  - by rewrite lookup_insert_ne.
Qed.

(** X23. The script stops at the first failure and takes nothing back. If
    it fails, either nothing was written: resolving, processing setup.yml
    or opening its destination failed; or the destination of setup.yml
    holds the filtered setup.yml and nothing else was written: processing
    the group vars file or opening its destination failed. *)
Theorem script_fail_fast (args : arguments) (fs fs' : gmap string string)
    (f : failure) :
  run args fs = (fs', Failed f) →
  (fs' = fs
   ∧ (resolving args fs = Failed f
      ∨ ∃ enabled known,
          resolving args fs = Done (enabled, known)
          ∧ (process_file fs (src_setup_yml_path args) enabled known
             = Failed f
             ∨ ∃ setup_yml_processed,
                 process_file fs (src_setup_yml_path args) enabled known
                 = Done setup_yml_processed
                 ∧ write setup_yml_processed (dst_setup_yml_path args) fs
                   = Failed f)))
  ∨ ∃ enabled known setup_yml_processed,
      resolving args fs = Done (enabled, known)
      ∧ process_file fs (src_setup_yml_path args) enabled known
        = Done setup_yml_processed
      ∧ write setup_yml_processed (dst_setup_yml_path args) fs = Done fs'
      ∧ fs' = <[dst_setup_yml_path args := setup_yml_processed]> fs
      ∧ (process_file fs' (src_group_vars_yml_path args) enabled known
         = Failed f
         ∨ ∃ group_vars_yml_processed,
             process_file fs' (src_group_vars_yml_path args) enabled known
             = Done group_vars_yml_processed
             ∧ write group_vars_yml_processed (dst_group_vars_yml_path args)
                 fs' = Failed f).
Proof.
  unfold main. intros H.
  destruct (resolving args fs) as [[enabled known]|] eqn:Hres.
  2:{ injection H as <- <-. left. split; [done|]. by left. }
  destruct (process_file fs _ enabled known) as [setup|] eqn:Hsetup.
  2:{ injection H as <- <-. left. split; [done|]. right.
      exists enabled, known. split; [done|]. by left. }
  destruct (write setup _ fs) as [fs1|] eqn:Hwrite1.
  2:{ injection H as <- <-. left. split; [done|]. right.
      exists enabled, known. split; [done|]. right. by exists setup. }
  assert (fs1 = <[dst_setup_yml_path args := setup]> fs) as Hfs1.
  { unfold write_to_file in Hwrite1.
    destruct (writable _); by simplify_eq. }
  right. exists enabled, known, setup.
  destruct (process_file fs1 _ enabled known) as [group|] eqn:Hgroup.
  - destruct (write group _ fs1) as [fs2|] eqn:Hwrite2; [done|].
    injection H as <- <-. repeat split; [done..|]. right. by exists group.
  - injection H as <- <-. repeat split; [done..|]. by left.
Qed.

(** X24. After a run that succeeds, the two destinations hold texts the
    filter leaves as they are, and the enabled names are among the known
    ones. *)
Theorem script_success (args : arguments) (fs fs' : gmap string string) :
  run args fs = (fs', Done ()) →
  ∃ enabled known setup_yml_processed group_vars_yml_processed,
    resolving args fs = Done (enabled, known) ∧ enabled ⊆ known
    ∧ fs' !! dst_group_vars_yml_path args = Some group_vars_yml_processed
    ∧ (dst_setup_yml_path args ≠ dst_group_vars_yml_path args →
       fs' !! dst_setup_yml_path args = Some setup_yml_processed)
    ∧ ∀ file_name' enabled' known',
        process_file_contents file_name' enabled' known'
          setup_yml_processed = Ok setup_yml_processed
        ∧ process_file_contents file_name' enabled' known'
            group_vars_yml_processed = Ok group_vars_yml_processed.
Proof.
  unfold main, write_to_file. intros H.
  destruct (resolving args fs) as [[enabled known]|] eqn:Hres; [|done].
  destruct (process_file fs _ enabled known) as [setup|] eqn:Hsetup; [|done].
  destruct (writable (dst_setup_yml_path args)); [|done].
  destruct (process_file (<[_ := _]> fs) _ enabled known) as [group|]
    eqn:Hgroup; [|done].
  destruct (writable (dst_group_vars_yml_path args)); [|done].
  injection H as <-. exists enabled, known, setup, group.
  split; [done|]. split.
  { unfold resolve_from in Hres.
    destruct (load_from _ _ _ _) as [used|]; [|done]. simpl in Hres.
    destruct (load_yaml_file _ _ _) as [all|]; [|done]. simpl in Hres.
    destruct (resolve all used) as [[e k]|] eqn:Hresolve; [|done].
    injection Hres as -> ->.
    unfold resolve in Hresolve. destruct all as [definitions|got];
      [|by destruct got].
    destruct (select_enabled used [] definitions) as [selected|] eqn:Hsel;
      [|done].
    simpl in Hresolve. injection Hresolve as <- <-.
    intros name. unfold names_of.
    rewrite !elem_of_list_to_set, !list_elem_of_fmap.
    intros (d & -> & Hd). exists d. split; [done|].
    destruct (select_enabled_sub _ _ _ _ Hsel d Hd) as [Hnil|?]; [|done].
    by apply elem_of_nil in Hnil. }
  split; [by rewrite lookup_insert_eq|]. split.
  { intros Hne. by rewrite lookup_insert_ne, lookup_insert_eq. }
  intros file_name' enabled' known'.
  unfold process_file in Hsetup, Hgroup.
  destruct (read_file fs _) as [text1|]; [|done].
  destruct (read_file (<[_ := _]> fs) _) as [text2|]; [|done].
  simpl in *.
  destruct (process_file_contents _ _ _ text1) as [out1|] eqn:H1; [|done].
  destruct (process_file_contents _ _ _ text2) as [out2|] eqn:H2; [|done].
  injection Hsetup as <-. injection Hgroup as <-. split.
  - eapply filter_fixpoint_any; eauto.
  - eapply filter_fixpoint_any; eauto.
Qed.

(** X25. Running the script again changes nothing, when no destination is
    among the paths it reads: the second run ends as the first did and
    leaves the file system of the first. *)
Theorem script_rerun (args : arguments) (fs : gmap string string) :
  dst_setup_yml_path args ∉ sources args →
  dst_group_vars_yml_path args ∉ sources args →
  run args (run args fs).1 = run args fs.
Proof.
  intros Hsetup Hgroup.
  assert (Hsrc : ∀ path, path ∈ sources args →
            path ≠ dst_setup_yml_path args
            ∧ path ≠ dst_group_vars_yml_path args).
  { intros path Hpath. split; by intros ->. }
  assert (Hs1 : src_setup_yml_path args ∈ sources args)
    by (unfold sources; set_solver).
  assert (Hs2 : src_group_vars_yml_path args ∈ sources args)
    by (unfold sources; set_solver).
  destruct (Hsrc _ Hs1) as [Hs1s Hs1g]. destruct (Hsrc _ Hs2) as [Hs2s Hs2g].
  unfold main at 2 3.
  destruct (resolving args fs) as [[enabled known]|] eqn:Hres.
  2:{ simpl. unfold main. by rewrite Hres. }
  destruct (process_file fs _ enabled known) as [setup|] eqn:Hp1.
  2:{ simpl. unfold main. by rewrite Hres, Hp1. }
  destruct (write setup _ fs) as [fs1'|] eqn:Hw1.
  2:{ simpl. unfold main. by rewrite Hres, Hp1, Hw1. }
  set (fs1 := <[dst_setup_yml_path args := setup]> fs).
  assert (Hok1 : writable (dst_setup_yml_path args) = true ∧ fs1' = fs1).
  { unfold write_to_file in Hw1. destruct (writable _); by simplify_eq. }
  destruct Hok1 as [Hok1 ->].
  assert (Hres1 : ∀ fs', (∀ path, path ∈ sources args →
                            fs' !! path = fs !! path) →
                   resolving args fs' = Done (enabled, known)).
  { intros fs' Hagree. by rewrite (resolve_from_agree fs' fs). }
  assert (Hagree1 : ∀ path, path ∈ sources args → fs1 !! path = fs !! path).
  { intros path [? ?]%Hsrc. unfold fs1. by rewrite lookup_insert_ne. }
  assert (Hw11 : write setup (dst_setup_yml_path args) fs1 = Done fs1).
  { unfold write_to_file. rewrite Hok1. unfold fs1.
    by rewrite insert_insert_eq. }
  assert (Hrun1 : ∀ tail,
            match resolving args fs1 with
            | Failed f => (fs1, Failed f)
            | Done (e, k) =>
                match process_file fs1 (src_setup_yml_path args) e k with
                | Failed f => (fs1, Failed f)
                | Done s =>
                    match write s (dst_setup_yml_path args) fs1 with
                    | Failed f => (fs1, Failed f)
                    | Done fs' => tail e k fs'
                    end
                end
            end = tail enabled known fs1 :> gmap string string * outcome unit).
  { intros tail. rewrite (Hres1 fs1 Hagree1).
    rewrite (process_file_agree fs1 fs) by auto. by rewrite Hp1, Hw11. }
  destruct (process_file fs1 _ enabled known) as [group|] eqn:Hp2.
  2:{ simpl. unfold main. rewrite Hrun1. by rewrite Hp2. }
  destruct (write group _ fs1) as [fs2'|] eqn:Hw2.
  2:{ simpl. unfold main. rewrite Hrun1. by rewrite Hp2, Hw2. }
  set (fs2 := <[dst_group_vars_yml_path args := group]> fs1).
  assert (Hok2 : writable (dst_group_vars_yml_path args) = true ∧ fs2' = fs2).
  { unfold write_to_file in Hw2.
    destruct (writable (dst_group_vars_yml_path args)); [|done].
    by injection Hw2 as <-. }
  destruct Hok2 as [Hok2 ->]. simpl.
  assert (Hagree2 : ∀ path, path ∈ sources args → fs2 !! path = fs !! path).
  { intros path [? ?]%Hsrc. unfold fs2, fs1. by rewrite !lookup_insert_ne. }
  unfold main, write_to_file. rewrite (Hres1 fs2 Hagree2).
  rewrite (process_file_agree fs2 fs) by auto. rewrite Hp1, Hok1.
  rewrite (process_file_agree _ fs1), Hp2, Hok2.
  2:{ unfold fs2, fs1. by rewrite !lookup_insert_ne. }
  f_equal. apply map_eq. intros path. unfold fs2, fs1.
  rewrite !lookup_insert. by repeat case_decide.
Qed.

End script_facts.

(** * Examples for the further properties *)

Lemma filter_error_sound_witness :
  let contents := Str.join ["x"; "# role-specific:A"; "# /role-specific:B"] in
  let known : gset string := {["A"]} in
  process_file_contents "setup.yml" ∅ known contents
  = Raise (UnknownRoleEnd "B" 3 "setup.yml" ["A"])
  ∧ ("setup.yml" = "setup.yml" ∧ ["A"] = sorted known ∧ ("B" ∉ known)
     ∧ ∃ i line st, 3 = S i ∧ Str.split contents !! i = Some line
         ∧ Marker.regex_role_specific_block_end line = Some "B"
         ∧ scan "setup.yml" ∅ known initial
             (enumerate 1 (take i (Str.split contents))) = Ok st
         ∧ unclosed known (role_specific_stack st)
             (take i (Str.split contents))).
Proof.
  intros contents known.
  assert (H : process_file_contents "setup.yml" ∅ known contents
              = Raise (UnknownRoleEnd "B" 3 "setup.yml" ["A"]))
    by (vm_compute; reflexivity).
  split; [exact H|].
  exact (filter_error_sound "setup.yml" ∅ known contents _ H).
Defined.

Lemma filter_output_invariants_witness :
  let out := Str.join ["- hosts: all"; "  - role: web"; ""; "";
                       "  - role: base"] in
  process_file_contents "setup.yml" {["web"]} {["web"; "off"]}
    Example.setup_yml = Ok out
  ∧ ∃ kept,
      out = Str.join kept
      ∧ kept `sublist_of` Str.split Example.setup_yml
      ∧ Forall Marker.is_regular kept
      ∧ Forall Str.has_no_newline kept
      ∧ (∀ i, ¬ blank_triple_at kept i)
      ∧ (kept ≠ [] → Str.split out = kept)
      ∧ (kept = [] → out = "").
Proof.
  intros out.
  assert (H : process_file_contents "setup.yml" {["web"]} {["web"; "off"]}
                Example.setup_yml = Ok out) by (vm_compute; reflexivity).
  split; [exact H|].
  exact (filter_output_invariants "setup.yml" {["web"]} {["web"; "off"]}
           Example.setup_yml out H).
Defined.

Lemma filter_clean_text_unchanged_witness :
  let contents := Str.join ["a"; ""; ""; "b"] in
  Forall Marker.is_regular (Str.split contents)
  ∧ (∀ i, ¬ blank_triple_at (Str.split contents) i)
  ∧ process_file_contents "setup.yml" ∅ ∅ contents = Ok contents.
Proof.
  intros contents.
  assert (Hreg : Forall Marker.is_regular (Str.split contents))
    by (repeat constructor).
  assert (Hfree : ∀ i, ¬ blank_triple_at (Str.split contents) i).
  { intros i (H0 & H1 & H2).
    change (Str.split contents) with ["a"; ""; ""; "b"] in *.
    destruct i as [|[|[|[|i]]]]; simpl in *; congruence. }
  split; [exact Hreg|]. split; [exact Hfree|].
  exact (filter_clean_text_unchanged "setup.yml" ∅ ∅ contents Hreg Hfree).
Defined.

Lemma filter_output_fixpoint_witness :
  let out := Str.join ["- hosts: all"; "  - role: web"; ""; "";
                       "  - role: base"] in
  process_file_contents "setup.yml" {["web"]} {["web"; "off"]}
    Example.setup_yml = Ok out
  ∧ process_file_contents "other.yml" ∅ ∅ out = Ok out.
Proof.
  intros out.
  assert (H : process_file_contents "setup.yml" {["web"]} {["web"; "off"]}
                Example.setup_yml = Ok out) by (vm_compute; reflexivity).
  split; [exact H|].
  exact (filter_output_fixpoint "setup.yml" {["web"]} {["web"; "off"]}
           Example.setup_yml out H "other.yml" ∅ ∅).
Defined.

Lemma filter_all_enabled_witness :
  let known : gset string := {["web"; "off"]} in
  let out := Str.join ["- hosts: all"; "  - role: web"; "  - role: off";
                       ""; ""; "  - role: base"] in
  known ⊆ known
  ∧ process_file_contents "setup.yml" known known Example.setup_yml = Ok out
  ∧ out = Str.join (collapse_blank_runs
                      (filter Marker.is_regular
                         (Str.split Example.setup_yml))).
Proof.
  intros known out.
  assert (Hsub : known ⊆ known) by set_solver.
  assert (H : process_file_contents "setup.yml" known known
                Example.setup_yml = Ok out) by (vm_compute; reflexivity).
  split; [exact Hsub|]. split; [exact H|].
  exact (filter_all_enabled "setup.yml" known known Example.setup_yml out
           Hsub H).
Defined.

Lemma marker_indentation_irrelevant_witness :
  Marker.all_spaces "    "
  ∧ Marker.regex_role_specific_block_start ("    " +:+ "# role-specific:web")
    = Marker.regex_role_specific_block_start "# role-specific:web".
Proof.
  assert (Hws : Marker.all_spaces "    ") by (repeat constructor).
  split; [exact Hws|].
  exact (proj1 (marker_indentation_irrelevant "    " "# role-specific:web"
                  Hws)).
Defined.

Lemma trailing_space_not_marker_witness :
  Str.has_no_newline ("# role-specific:web" +:+ " ")
  ∧ Marker.is_space " " = true
  ∧ Marker.is_regular ("# role-specific:web" +:+ " ").
Proof.
  assert (Hnl : Str.has_no_newline ("# role-specific:web" +:+ " "))
    by compute_done.
  split; [exact Hnl|]. split; [reflexivity|].
  exact (trailing_space_not_marker "# role-specific:web" " " Hnl eq_refl).
Defined.

Lemma activation_monotone_witness :
  let role_definition : RoleDefinition :=
    {[ "name" := "web"; "activation_prefix" := "web_" ]} in
  ({[ "web_port" ]} : gset string) ⊆ {[ "web_port"; "db_host" ]}
  ∧ is_role_definition_in_use role_definition {[ "web_port" ]} = true
  ∧ is_role_definition_in_use role_definition {[ "web_port"; "db_host" ]}
    = true.
Proof.
  intros role_definition.
  assert (Hsub : ({[ "web_port" ]} : gset string)
                 ⊆ {[ "web_port"; "db_host" ]}) by set_solver.
  assert (Huse : is_role_definition_in_use role_definition {[ "web_port" ]}
                 = true) by (vm_compute; reflexivity).
  split; [exact Hsub|]. split; [exact Huse|].
  exact (activation_monotone role_definition _ _ Hsub Huse).
Defined.

Lemma resolve_membership_witness :
  let definitions : list RoleDefinition :=
    [ {[ "name" := "web"; "activation_prefix" := "web_" ]};
      {[ "name" := "web" ]}; {[ "name" := "off" ]} ] in
  resolve (Is (Is <$> definitions)) {[ "web_port" ]}
  = Ok ({[ "web" ]}, {[ "web"; "off" ]})
  ∧ ("web" ∈ ({[ "web" ]} : gset string)
     ↔ ∃ d, d ∈ definitions ∧ d !! "name" = Some "web"
            ∧ is_role_definition_in_use d {[ "web_port" ]} = true).
Proof.
  intros definitions.
  assert (H : resolve (Is (Is <$> definitions)) {[ "web_port" ]}
              = Ok ({[ "web" ]}, {[ "web"; "off" ]}))
    by (vm_compute; reflexivity).
  split; [exact H|].
  exact (proj2 (resolve_membership definitions _ _ _ H "web")).
Defined.

Lemma resolve_first_invalid_witness :
  let valid : list RoleDefinition := [ {[ "name" := "web" ]} ] in
  Forall (fun d => is_Some (d !! "name")) valid
  ∧ resolve (Is ((Is <$> valid) ++ IsNot TStr :: [Is ∅])) ∅
    = Raise (RoleDefinitionNotDict TStr).
Proof.
  intros valid.
  assert (Hvalid : Forall (fun d => is_Some (d !! "name")) valid).
  { constructor; [by exists "web"|constructor]. }
  split; [exact Hvalid|].
  exact (proj1 (resolve_first_invalid valid [Is ∅] ∅ Hvalid) TStr).
Defined.

Lemma load_vars_first_error_witness :
  let before := [("a.yml", YDict {[ "a" := YInt 1 ]}); ("b.yml", YList [])] in
  Forall (fun file => truthy file.2 = false ∨ type_of file.2 = TDict) before
  ∧ truthy (YStr "text") = true ∧ type_of (YStr "text") ≠ TDict
  ∧ load_combined_variable_names_from_files
      (before ++ ("c.yml", YStr "text") :: [("d.yml", YInt 7)])
    = Raise (VarsNotMapping "c.yml" TStr).
Proof.
  intros before.
  assert (Hbefore : Forall (fun file => truthy file.2 = false
                                        ∨ type_of file.2 = TDict) before).
  { constructor; [by right|]. constructor; [by left|constructor]. }
  assert (Htype : type_of (YStr "text") ≠ TDict) by discriminate.
  split; [exact Hbefore|]. split; [reflexivity|]. split; [exact Htype|].
  exact (load_vars_first_error before [("d.yml", YInt 7)] "c.yml"
           (YStr "text") Hbefore eq_refl Htype).
Defined.

Lemma load_vars_order_irrelevant_witness :
  let a := ("a.yml", YDict {[ "a" := YInt 1 ]}) in
  let b := ("b.yml", YDict {[ "b" := YInt 2 ]}) in
  [a; b] ≡ₚ [b; a]
  ∧ load_combined_variable_names_from_files [a; b] = Ok {[ "a"; "b" ]}
  ∧ load_combined_variable_names_from_files [b; a] = Ok {[ "a"; "b" ]}.
Proof.
  intros a b.
  assert (Hperm : [a; b] ≡ₚ [b; a]) by apply perm_swap.
  assert (H : load_combined_variable_names_from_files [a; b]
              = Ok {[ "a"; "b" ]}) by (vm_compute; reflexivity).
  split; [exact Hperm|]. split; [exact H|].
  exact (load_vars_order_irrelevant [a; b] [b; a] _ Hperm H).
Defined.

Lemma split_whitespace_words_witness :
  Forall (fun word => word ≠ "" ∧ Marker.no_spaces word)
    ["vars.yml"; "extra.yml"]
  ∧ split_whitespace (String.concat " " ["vars.yml"; "extra.yml"])
    = ["vars.yml"; "extra.yml"].
Proof.
  assert (H : Forall (fun word => word ≠ "" ∧ Marker.no_spaces word)
                ["vars.yml"; "extra.yml"]).
  { repeat constructor; discriminate. }
  split; [exact H|].
  exact (proj2 (split_whitespace_words "" ["vars.yml"; "extra.yml"]) H).
Defined.

Lemma script_loads_vars_witness :
  let files := [("vars.yml", YDict {[ "web_port" := YInt 8080 ]});
                ("extra.yml", YNone)] in
  Forall (fun file => ∃ text, Example.fs !! file.1 = Some text
                              ∧ Example.parse_vars text = Some file.2) files
  ∧ load_from Example.parse_vars Example.fs ∅ files.*1
    = lift (load_combined_variable_names_from_files files).
Proof.
  intros files.
  assert (H : Forall (fun file => ∃ text,
                        Example.fs !! file.1 = Some text
                        ∧ Example.parse_vars text = Some file.2) files).
  { constructor; [by exists "web_port: 8080"|].
    constructor; [by exists ""|constructor]. }
  split; [exact H|].
  exact (script_loads_vars Example.parse_vars Example.fs files H).
Defined.

Lemma script_missing_vars_file_witness :
  let args :=
    Args "vars.yml missing.yml extra.yml" "requirements.yml" "setup.yml"
      "group_vars.yml" "out/requirements.yml" "out/setup.yml"
      "out/group_vars.yml" in
  let before := [("vars.yml", YDict {[ "web_port" := YInt 8080 ]})] in
  split_whitespace (vars_paths args)
  = before.*1 ++ "missing.yml" :: ["extra.yml"]
  ∧ Example.fs !! "missing.yml" = None
  ∧ main Example.parse_vars Example.parse_requirements Example.writable
      args Example.fs
    = (Example.fs, Failed (FileNotFoundError "missing.yml")).
Proof.
  intros args before.
  assert (Hread : Forall (fun file => ∃ text,
                            Example.fs !! file.1 = Some text
                            ∧ Example.parse_vars text = Some file.2) before).
  { constructor; [by exists "web_port: 8080"|constructor]. }
  assert (Hok : Forall (fun file => truthy file.2 = false
                                    ∨ type_of file.2 = TDict) before).
  { constructor; [by right|constructor]. }
  split; [reflexivity|]. split; [reflexivity|].
  exact (script_missing_vars_file Example.parse_vars
           Example.parse_requirements Example.writable args Example.fs
           before "missing.yml" ["extra.yml"] eq_refl Hread Hok eq_refl).
Defined.

Lemma script_frame_witness :
  "out/requirements.yml" ≠ dst_setup_yml_path Example.args
  ∧ "out/requirements.yml" ≠ dst_group_vars_yml_path Example.args
  ∧ (main Example.parse_vars Example.parse_requirements Example.writable
       Example.args Example.fs).1 !! "out/requirements.yml"
    = Example.fs !! "out/requirements.yml".
Proof.
  assert (H1 : "out/requirements.yml" ≠ dst_setup_yml_path Example.args)
    by discriminate.
  assert (H2 : "out/requirements.yml" ≠ dst_group_vars_yml_path Example.args)
    by discriminate.
  split; [exact H1|]. split; [exact H2|].
  exact (script_frame Example.parse_vars Example.parse_requirements
           Example.writable Example.args Example.fs "out/requirements.yml"
           H1 H2).
Defined.

Lemma script_fail_fast_witness :
  let args := Example.args_readonly in
  let fs := Example.fs in
  let setup_out := Str.join ["- hosts: all"; "  - role: web"; ""; "";
                             "  - role: base"] in
  let fs' := <[ "out/setup.yml" := setup_out ]> fs in
  let f := OSError "readonly/group_vars.yml" in
  let resolving :=
    resolve_from Example.parse_vars Example.parse_requirements in
  let write := write_to_file Example.writable in
  main Example.parse_vars Example.parse_requirements Example.writable args fs
  = (fs', Failed f)
  ∧ ((fs' = fs
      ∧ (resolving args fs = Failed f
         ∨ ∃ enabled known,
             resolving args fs = Done (enabled, known)
             ∧ (process_file fs (src_setup_yml_path args) enabled known
                = Failed f
                ∨ ∃ setup_yml_processed,
                    process_file fs (src_setup_yml_path args) enabled known
                    = Done setup_yml_processed
                    ∧ write setup_yml_processed (dst_setup_yml_path args) fs
                      = Failed f)))
     ∨ ∃ enabled known setup_yml_processed,
         resolving args fs = Done (enabled, known)
         ∧ process_file fs (src_setup_yml_path args) enabled known
           = Done setup_yml_processed
         ∧ write setup_yml_processed (dst_setup_yml_path args) fs = Done fs'
         ∧ fs' = <[dst_setup_yml_path args := setup_yml_processed]> fs
         ∧ (process_file fs' (src_group_vars_yml_path args) enabled known
            = Failed f
            ∨ ∃ group_vars_yml_processed,
                process_file fs' (src_group_vars_yml_path args) enabled known
                = Done group_vars_yml_processed
                ∧ write group_vars_yml_processed
                    (dst_group_vars_yml_path args) fs' = Failed f)).
Proof.
  intros args fs setup_out fs' f resolving write.
  assert (H : main Example.parse_vars Example.parse_requirements
                Example.writable args fs = (fs', Failed f))
    by (vm_compute; reflexivity).
  split; [exact H|].
  exact (script_fail_fast Example.parse_vars Example.parse_requirements
           Example.writable args fs fs' f H).
Defined.

Lemma script_success_witness :
  let setup_out := Str.join ["- hosts: all"; "  - role: web"; ""; "";
                             "  - role: base"] in
  let fs' := <[ "out/group_vars.yml" := "base: 1" ]>
               (<[ "out/setup.yml" := setup_out ]> Example.fs) in
  main Example.parse_vars Example.parse_requirements Example.writable
    Example.args Example.fs
  = (fs', Done ())
  ∧ ∃ enabled known setup_yml_processed group_vars_yml_processed,
      resolve_from Example.parse_vars Example.parse_requirements
        Example.args Example.fs = Done (enabled, known)
      ∧ enabled ⊆ known
      ∧ fs' !! dst_group_vars_yml_path Example.args
        = Some group_vars_yml_processed
      ∧ (dst_setup_yml_path Example.args
         ≠ dst_group_vars_yml_path Example.args →
         fs' !! dst_setup_yml_path Example.args = Some setup_yml_processed)
      ∧ ∀ file_name' enabled' known',
          process_file_contents file_name' enabled' known'
            setup_yml_processed = Ok setup_yml_processed
          ∧ process_file_contents file_name' enabled' known'
              group_vars_yml_processed = Ok group_vars_yml_processed.
Proof.
  intros setup_out fs'.
  assert (H : main Example.parse_vars Example.parse_requirements
                Example.writable Example.args Example.fs = (fs', Done ()))
    by (vm_compute; reflexivity).
  split; [exact H|].
  exact (script_success Example.parse_vars Example.parse_requirements
           Example.writable Example.args Example.fs fs' H).
Defined.

Lemma script_rerun_witness :
  (dst_setup_yml_path Example.args_readonly ∉ sources Example.args_readonly)
  ∧ (dst_group_vars_yml_path Example.args_readonly
     ∉ sources Example.args_readonly)
  ∧ main Example.parse_vars Example.parse_requirements Example.writable
      Example.args_readonly
      (main Example.parse_vars Example.parse_requirements Example.writable
         Example.args_readonly Example.fs).1
    = main Example.parse_vars Example.parse_requirements Example.writable
        Example.args_readonly Example.fs.
Proof.
  assert (H1 : dst_setup_yml_path Example.args_readonly
               ∉ sources Example.args_readonly) by compute_done.
  assert (H2 : dst_group_vars_yml_path Example.args_readonly
               ∉ sources Example.args_readonly) by compute_done.
  split; [exact H1|]. split; [exact H2|].
  exact (script_rerun Example.parse_vars Example.parse_requirements
           Example.writable Example.args_readonly Example.fs H1 H2).
Defined.

Lemma resolve_order_irrelevant_witness :
  let web : RoleDefinition :=
    {[ "name" := "web"; "activation_prefix" := "web_" ]} in
  let off : RoleDefinition := {[ "name" := "off" ]} in
  [web; off] ≡ₚ [off; web]
  ∧ resolve (Is (Is <$> [web; off])) {[ "web_port" ]}
    = Ok ({[ "web" ]}, {[ "web"; "off" ]})
  ∧ resolve (Is (Is <$> [off; web])) {[ "web_port" ]}
    = Ok ({[ "web" ]}, {[ "web"; "off" ]}).
Proof.
  intros web off.
  assert (Hperm : [web; off] ≡ₚ [off; web]) by apply perm_swap.
  assert (H : resolve (Is (Is <$> [web; off])) {[ "web_port" ]}
              = Ok ({[ "web" ]}, {[ "web"; "off" ]}))
    by (vm_compute; reflexivity).
  split; [exact Hperm|]. split; [exact H|].
  exact (resolve_order_irrelevant [web; off] [off; web] _ _ Hperm H).
Defined.
